(** * roughrider.workflow: a shallow embedding of [graph.py]

    The module is a small workflow engine: states drawn from a closed
    enumeration, guarded transitions between them, and a runtime handle
    ([WorkflowItem]) that commits a transition on a host entity.

    Python objects are modelled as records, exceptions as an inductive
    type, and every call that may raise or mutate the host entity as a
    computation in a state-and-exception monad over the entity. *)

From Stdlib Require Import List String Bool.
Import ListNotations.
Open Scope string_scope.
Open Scope list_scope.

Set Implicit Arguments.

(** ** Python values that occur in the module *)

(** [class Error(Exception)]: one named failure carrying a message. *)
Record Error := mkError { message : string }.

(** A member of a [WorkflowState] enumeration ([class WorkflowState(State,
    enum.Enum)]).  [identifier] is the field of the [State] dataclass;
    [name] is the member name given by [enum.Enum], the key under which
    the enumeration resolves the member. *)
Record WorkflowState := mkState { name : string; identifier : string }.

(** [State.__eq__] is the one generated by [@dataclass]: two states are
    equal when their [identifier] fields are; [State.__hash__] hashes the
    same field.  This is the equality a [dict] keyed by states uses. *)
Definition State_eqb (a b : WorkflowState) : bool :=
  String.eqb (identifier a) (identifier b).

(** What the code passes as a subscript to the enumeration or to
    [get_state]: [None], a [str], or an already resolved member. *)
Inductive pykey :=
| KNone
| KStr (s : string)
| KMember (m : WorkflowState).

(** The exceptions that can travel through the module.  [OtherException]
    stands for whatever else a validator or a trigger raises. *)
Inductive exn :=
| Raise_Error (e : Error)
| Raise_ConstraintsErrors (errors : list Error)
| AttributeError (type_name attribute : string)
| NameError (identifier_name : string)
| KeyError (key : pykey)
| LookupError (origin target : WorkflowState)
| OtherException (tag : string).

Inductive result (A : Type) :=
| Returns (a : A)
| Raises (e : exn).
Arguments Returns {A} a.
Arguments Raises {A} e.

(** ** Insertion-ordered dictionaries

  A Python [dict] keeps its keys in insertion order; assigning to a key
  that is already present replaces the value and keeps the position. *)
Section Dict.
Context {K V : Type} (eqb : K -> K -> bool).

Fixpoint dict_get (d : list (K * V)) (k : K) : option V :=
  match d with
  | [] => None
  | (k', v) :: d' => if eqb k' k then Some v else dict_get d' k
  end.

Fixpoint dict_set (d : list (K * V)) (k : K) (v : V) : list (K * V) :=
  match d with
  | [] => [(k, v)]
  | (k', v') :: d' =>
      if eqb k' k then (k', v) :: d' else (k', v') :: dict_set d' k v
  end.

(** [k] equals one of the keys [ks]. *)
Definition in_keys (ks : list K) (k : K) : bool :=
  existsb (fun k' => eqb k' k) ks.

(** No two keys of a dictionary are equal. *)
Fixpoint dict_wf (d : list (K * V)) : Prop :=
  match d with
  | [] => True
  | (k, _) :: d' => in_keys (map fst d') k = false /\ dict_wf d'
  end.

(** Keep the first of each group of equal keys, in place. *)
Fixpoint dedup_first (ks : list K) : list K :=
  match ks with
  | [] => []
  | k :: rest => k :: filter (fun k' => negb (eqb k k')) (dedup_first rest)
  end.
End Dict.

(** ** Calls that may raise and may mutate

    A call returns or raises, and leaves the mutable state [S] in a new
    state either way: what a callee did before it raised stays done. *)
Definition M (S A : Type) : Type := S -> result A * S.

Definition ret {S A} (a : A) : M S A := fun s => (Returns a, s).
Definition raise {S A} (e : exn) : M S A := fun s => (Raises e, s).
Definition bind {S A B} (c : M S A) (k : A -> M S B) : M S B :=
  fun s =>
    match c s with
    | (Returns a, s') => k a s'
    | (Raises e, s') => (Raises e, s')
    end.
(** A computation that does not touch the state. *)
Definition lift {S A} (r : result A) : M S A := fun s => (r, s).

Declare Scope py_scope.
Delimit Scope py_scope with py.
Notation "x <- c ;; k" := (bind c (fun x => k))
  (at level 61, c at next level, right associativity) : py_scope.
Open Scope py_scope.

(** ** The module *)
Section Engine.
(** [Host] is everything mutable besides the state slot: the other
    attributes of the entity and whatever validators and triggers reach
    through the namespace.  [NS] is the keyword namespace, passed through
    unchanged. *)
Context {Host NS : Type}.

(** The host entity: the [__workflow_state__] slot and the rest. *)
Record Item := mkItem { __workflow_state__ : option string; host : Host }.

(** Calls made on behalf of an item run in the monad over [Item]. *)
Definition Cmd (A : Type) : Type := M Item A.

(** [class Validator(ABC)]: an object with a [validate] method. *)
Record Validator := mkValidator { validate : NS -> Cmd unit }.

(** *** [OR.validate]

    The loop body, with the running [errors] list as accumulator.  The
    handler of [ConstraintsErrors] calls [errors.extends], which a list
    does not have; the statement after the loop names
    [ConstraintsError], which the module does not define. *)
Fixpoint OR_loop (validators : list Validator) (ns : NS)
         (errors : list Error) : Cmd unit :=
  match validators with
  | [] => raise (NameError "ConstraintsError")
  | validator :: rest => fun it =>
      match validate validator ns it with
      | (Returns _, it') => (Returns tt, it')
      | (Raises (Raise_Error exc), it') => OR_loop rest ns (errors ++ [exc]) it'
      | (Raises (Raise_ConstraintsErrors _), it') =>
          (Raises (AttributeError "list" "extends"), it')
      | (Raises e, it') => (Raises e, it')
      end
  end.

Definition OR_validate (validators : list Validator) (ns : NS) : Cmd unit :=
  OR_loop validators ns [].

Definition OR (validators : list Validator) : Validator :=
  mkValidator (OR_validate validators).

(** *** [resolve_validators] *)
Fixpoint resolve_loop (validators : list Validator) (ns : NS)
         (errors : list Error) : Cmd (list Error) :=
  match validators with
  | [] => ret errors
  | validator :: rest => fun it =>
      match validate validator ns it with
      | (Returns _, it') => resolve_loop rest ns errors it'
      | (Raises (Raise_Error exc), it') =>
          resolve_loop rest ns (errors ++ [exc]) it'
      | (Raises (Raise_ConstraintsErrors _), it') =>
          (Raises (AttributeError "list" "extends"), it')
      | (Raises e, it') => (Raises e, it')
      end
  end.

(** [Errors = Optional[ConstraintsErrors]]: [Some errors] is a
    [ConstraintsErrors] object holding [errors], [None] is [None]. *)
Definition Errors := option (list Error).

Definition resolve_validators (validators : list Validator) (ns : NS)
  : Cmd Errors :=
  errors <- resolve_loop validators ns [] ;;
  match errors with
  | [] => ret None
  | _ :: _ => ret (Some errors)
  end.

(** *** [Action] *)
Record Action := mkAction {
  action_identifier : string;
  constraints : list Validator;
  triggers : list (NS -> Cmd unit)
}.

Definition check_constraints (a : Action) (ns : NS) : Cmd Errors :=
  match constraints a with
  | [] => ret None
  | _ :: _ => resolve_validators (constraints a) ns
  end.

(** *** [Transition] and [Transitions] *)
Record Transition := mkTransition {
  action : Action;
  origin : WorkflowState;
  target : WorkflowState
}.

(** [_edges]: a [defaultdict(dict)] from origin to a [dict] from target to
    transition. *)
Definition Edges : Type :=
  list (WorkflowState * list (WorkflowState * Transition)).

(** [defaultdict.__getitem__]: a missing key is inserted with an empty
    [dict] as its value, which is returned.  The second component is the
    mapping after the call. *)
Definition defaultdict_getitem (edges : Edges) (k : WorkflowState)
  : list (WorkflowState * Transition) * Edges :=
  match dict_get State_eqb edges k with
  | Some inner => (inner, edges)
  | None => ([], dict_set State_eqb edges k [])
  end.

(** One turn of the loop of [Transitions.__new__]:
    [obj._edges[trn.origin][trn.target] = trn]. *)
Definition add_edge (edges : Edges) (trn : Transition) : Edges :=
  let (inner, edges') := defaultdict_getitem edges (origin trn) in
  dict_set State_eqb edges' (origin trn)
           (dict_set State_eqb inner (target trn) trn).

(** [class Transitions(Tuple[Transition])]: the tuple itself and the
    [_edges] attribute. *)
Record Transitions := mkTransitions {
  as_tuple : list Transition;
  _edges : Edges
}.

Definition Transitions_new (transitions : list Transition) : Transitions :=
  mkTransitions transitions (fold_left add_edge transitions []).

(** [Transitions.available] is a generator; this is what a caller that
    consumes it to the end obtains (as [get_possible_actions] does with
    [tuple(...)]).  The empty [dict] that the subscript may add to
    [_edges] under a fresh origin is not kept: no later lookup can tell
    the difference (lemma [defaultdict_getitem_stable]). *)
Fixpoint available_loop (items : list (WorkflowState * Transition))
         (ns : NS) : Cmd (list Transition) :=
  match items with
  | [] => ret []
  | (_, trn) :: rest =>
      error <- check_constraints (action trn) ns ;;
      yielded <- available_loop rest ns ;;
      ret (match error with
           | None => trn :: yielded
           | Some _ => yielded
           end)
  end.

Definition available (self : Transitions) (origin : WorkflowState)
           (ns : NS) : Cmd (list Transition) :=
  available_loop (fst (defaultdict_getitem (_edges self) origin)) ns.

Definition find (self : Transitions) (origin target : WorkflowState)
  : result Transition :=
  match dict_get State_eqb
                 (fst (defaultdict_getitem (_edges self) origin)) target with
  | Some trn => Returns trn
  | None => Raises (LookupError origin target)
  end.

(** *** [Workflow]

    [states] is the member map of the enumeration
    ([EnumMeta._member_map_]), from member names to members. *)
Record Workflow := mkWorkflow {
  states : list (string * WorkflowState);
  transitions : Transitions;
  default_state : WorkflowState
}.

(** [self.states[key]], that is [EnumMeta.__getitem__]: a lookup of [key]
    in the member map, whose keys are the member names.  A key that is
    not a string equals none of them. *)
Definition states_getitem (members : list (string * WorkflowState))
           (key : pykey) : result WorkflowState :=
  match key with
  | KStr s =>
      match dict_get String.eqb members s with
      | Some m => Returns m
      | None => Raises (KeyError key)
      end
  | _ => Raises (KeyError key)
  end.

(** [Workflow.__init__]; [states] and [transitions] are class attributes
    of the workflow definition. *)
Definition Workflow_init (members : list (string * WorkflowState))
           (trs : Transitions) (default_state : pykey) : result Workflow :=
  match states_getitem members default_state with
  | Returns m => Returns (mkWorkflow members trs m)
  | Raises e => Raises e
  end.

Definition Workflow_getitem (self : Workflow) (name : pykey)
  : result WorkflowState :=
  states_getitem (states self) name.

Definition get_state (self : Workflow) (name : pykey)
  : result WorkflowState :=
  match name with
  | KNone => Returns (default_state self)
  | _ => states_getitem (states self) name
  end.

(** *** [WorkflowItem]

    The [item] attribute is the state of the monad. *)
Record WorkflowItem := mkWorkflowItem {
  workflow : Workflow;
  namespace : NS
}.

Definition Workflow_call (self : Workflow) (ns : NS) : WorkflowItem :=
  mkWorkflowItem self ns.

(** Truth value of the slot: [None] and the empty string are false. *)
Definition truthy (slot : option string) : bool :=
  match slot with
  | None => false
  | Some s => negb (String.eqb s "")
  end.

(** The slot's value as a subscript. *)
Definition slot_key (slot : option string) : pykey :=
  match slot with
  | None => KNone
  | Some s => KStr s
  end.

(** The [state] property. *)
Definition WorkflowItem_state (self : WorkflowItem) : Cmd WorkflowState :=
  fun it =>
    if truthy (__workflow_state__ it)
    then (get_state (workflow self) (slot_key (__workflow_state__ it)), it)
    else (get_state (workflow self) KNone, it).

Definition get_possible_actions (self : WorkflowItem)
  : Cmd (list Transition) :=
  state <- WorkflowItem_state self ;;
  available (transitions (workflow self)) state (namespace self).

(** The [for trigger in trn.action.triggers] loop. *)
Fixpoint run_triggers (trgs : list (NS -> Cmd unit)) (ns : NS) : Cmd unit :=
  match trgs with
  | [] => ret tt
  | trigger :: rest => _ <- trigger ns ;; run_triggers rest ns
  end.

(** [self.item.__workflow_state__ = value]. *)
Definition write_state (value : string) : Cmd unit :=
  fun it => (Returns tt, mkItem (Some value) (host it)).

Definition set_state (self : WorkflowItem) (target_state : string)
  : Cmd unit :=
  target <- lift (states_getitem (states (workflow self))
                                 (KStr target_state)) ;;
  state <- WorkflowItem_state self ;;
  trn <- lift (find (transitions (workflow self)) state target) ;;
  error <- check_constraints (action trn) (namespace self) ;;
  match error with
  | Some errors => raise (Raise_ConstraintsErrors errors)
  | None =>
      _ <- run_triggers (triggers (action trn)) (namespace self) ;;
      write_state (name target)
  end.

End Engine.

Arguments Item : clear implicits.
Arguments Validator : clear implicits.
Arguments Action : clear implicits.
Arguments Transition : clear implicits.
Arguments Transitions : clear implicits.
Arguments Workflow : clear implicits.
Arguments WorkflowItem : clear implicits.
Arguments Cmd : clear implicits.
Arguments Edges : clear implicits.

(** ** Vocabulary of the statements

    These definitions are not part of the module: they phrase, in the
    words of the specification, what the theorems below compare the code
    with. *)
Section Reference.
Context {Host NS : Type}.

(** Evaluate every validator in turn, whatever the earlier ones did, and
    record each outcome. *)
Fixpoint evaluate_all (validators : list (Validator Host NS)) (ns : NS)
         (it : Item Host) : list (result unit) * Item Host :=
  match validators with
  | [] => ([], it)
  | v :: rest =>
      let (o, it') := validate v ns it in
      let (os, it'') := evaluate_all rest ns it' in
      (o :: os, it'')
  end.

(** The single failures among a list of outcomes, in order. *)
Fixpoint single_failures (outcomes : list (result unit)) : list Error :=
  match outcomes with
  | [] => []
  | Raises (Raise_Error e) :: rest => e :: single_failures rest
  | _ :: rest => single_failures rest
  end.

(** An outcome that is one failure. *)
Definition is_single_failure (o : result unit) : Prop :=
  exists e, o = Raises (Raise_Error e).

(** An aggregate exists only when it has an element. *)
Definition aggregate_or_absent (errors : list Error) : Errors :=
  match errors with
  | [] => None
  | _ :: _ => Some errors
  end.

(** A validator that, on every entity, passes or signals one failure. *)
Definition passes_or_fails_once (v : Validator Host NS) (ns : NS) : Prop :=
  forall it, exists it',
    validate v ns it = (Returns tt, it') \/
    exists e, validate v ns it = (Raises (Raise_Error e), it').

(** All triggers of a list ran, in order, each returning normally. *)
Inductive ran_in_order (ns : NS)
  : list (NS -> Cmd Host unit) -> Item Host -> Item Host -> Prop :=
| ran_none it : ran_in_order ns [] it it
| ran_next trigger rest it it' it'' :
    trigger ns it = (Returns tt, it') ->
    ran_in_order ns rest it' it'' ->
    ran_in_order ns (trigger :: rest) it it''.

(** The first two steps of a commit went through: the target name
    resolved to [tgt], the entity's current state is [st], and the index
    holds [trn] from [st] to [tgt]. *)
Definition resolves (self : WorkflowItem Host NS) (target_state : string)
           (it : Item Host) (tgt st : WorkflowState)
           (trn : Transition Host NS) : Prop :=
  states_getitem (states (workflow self)) (KStr target_state) = Returns tgt /\
  WorkflowItem_state self it = (Returns st, it) /\
  find (transitions (workflow self)) st tgt = Returns trn.

(** A call that leaves the state slot as it found it. *)
Definition keeps_slot (c : Cmd Host unit) : Prop :=
  forall it, __workflow_state__ (snd (c it)) = __workflow_state__ it.

(** The transition supplied last for the pair [(o, g)]. *)
Definition same_pair (o g : WorkflowState) (t : Transition Host NS) : bool :=
  State_eqb (origin t) o && State_eqb (target t) g.

Fixpoint last_supplied (ts : list (Transition Host NS))
         (o g : WorkflowState) : option (Transition Host NS) :=
  match ts with
  | [] => None
  | t :: rest =>
      match last_supplied rest o g with
      | Some u => Some u
      | None => if same_pair o g t then Some t else None
      end
  end.

(** The [dict] that [_edges] holds under [o]: every transition leaving
    [o] is assigned under its target, in the order of the sequence. *)
Definition index_step (o : WorkflowState)
           (d : list (WorkflowState * Transition Host NS))
           (t : Transition Host NS)
  : list (WorkflowState * Transition Host NS) :=
  if State_eqb (origin t) o then dict_set State_eqb d (target t) t else d.

(** The targets supplied from [o], each at its first supply. *)
Definition first_supplied_targets (ts : list (Transition Host NS))
           (o : WorkflowState) : list WorkflowState :=
  dedup_first State_eqb
    (map (@target Host NS)
         (filter (fun t => State_eqb (origin t) o) ts)).

(** The transitions the index retains under [o]: for each target, in
    the order of first supply, the transition supplied last. *)
Definition retained (ts : list (Transition Host NS)) (o : WorkflowState)
  : list (Transition Host NS) :=
  flat_map (fun g => match last_supplied ts o g with
                     | Some t => [t]
                     | None => []
                     end)
           (first_supplied_targets ts o).

(** No pair (origin, target) is supplied twice. *)
Fixpoint pairs_distinct (ts : list (Transition Host NS)) : Prop :=
  match ts with
  | [] => True
  | t :: rest =>
      (forall u, In u rest -> same_pair (origin t) (target t) u = false) /\
      pairs_distinct rest
  end.

(** The guards of an action hold on an entity. *)
Definition guard_passes (a : Action Host NS) (ns : NS) (it : Item Host)
  : bool :=
  match fst (check_constraints a ns it) with
  | Returns None => true
  | _ => false
  end.

(** Guard evaluation that returns and leaves the entity alone. *)
Definition pure_guard (a : Action Host NS) (ns : NS) (it : Item Host)
  : Prop :=
  exists r, check_constraints a ns it = (Returns r, it).

End Reference.

(** [ys] is [l] with some elements left out, the others in place. *)
Inductive subseq {A : Type} : list A -> list A -> Prop :=
| subseq_nil l : subseq [] l
| subseq_skip x ys l : subseq ys l -> subseq ys (x :: l)
| subseq_take x ys l : subseq ys l -> subseq (x :: ys) (x :: l).

(** ** A publication workflow, for concrete runs

    The host data is a log of the calls made on the entity. *)
Module Demo.

Definition Log : Type := list string.
Definition Doc : Type := Item Log.

Definition logged (tag : string) (it : Doc) : Doc :=
  mkItem (__workflow_state__ it) (host it ++ [tag]).

Definition passing (tag : string) : Validator Log unit :=
  mkValidator (fun _ it => (Returns tt, logged tag it)).

Definition failing (tag : string) : Validator Log unit :=
  mkValidator (fun _ it => (Raises (Raise_Error (mkError tag)), logged tag it)).

(** A validator that signals an aggregate. *)
Definition failing_many (tag : string) (msgs : list string)
  : Validator Log unit :=
  mkValidator (fun _ it =>
    (Raises (Raise_ConstraintsErrors (map mkError msgs)), logged tag it)).

Definition notify (tag : string) : unit -> Cmd Log unit :=
  fun _ it => (Returns tt, logged tag it).

Definition crash (tag : string) : unit -> Cmd Log unit :=
  fun _ it => (Raises (OtherException tag), logged tag it).

Definition draft : WorkflowState := mkState "draft" "Draft".
Definition submitted : WorkflowState := mkState "submitted" "Submitted".
Definition published : WorkflowState := mkState "published" "Published".

Definition members : list (string * WorkflowState) :=
  [("draft", draft); ("submitted", submitted); ("published", published)].

Definition fresh : Doc := mkItem None [].

Definition submit : Transition Log unit :=
  mkTransition
    (mkAction "submit" [passing "has_body"] [notify "T1"; notify "T2"])
    draft submitted.

Definition publish : Transition Log unit :=
  mkTransition
    (mkAction "publish"
              [failing "not_reviewed"; passing "has_body"; failing "embargo"]
              [notify "announce"])
    submitted published.

Definition retract : Transition Log unit :=
  mkTransition (mkAction "retract" [] [notify "T1"; crash "T2"])
               published draft.

Definition workflow : Workflow Log unit :=
  mkWorkflow members (Transitions_new [submit; publish; retract]) draft.

Definition bound : WorkflowItem Log unit := Workflow_call workflow tt.

(** Guards that only look: one passes on a document whose log is
    empty, the other never passes. *)
Definition untouched : Validator Log unit :=
  mkValidator (fun _ it =>
    match host it with
    | [] => (Returns tt, it)
    | _ :: _ => (Raises (Raise_Error (mkError "touched")), it)
    end).

Definition never : Validator Log unit :=
  mkValidator (fun _ it => (Raises (Raise_Error (mkError "never")), it)).

Definition open_submit : Transition Log unit :=
  mkTransition (mkAction "submit" [untouched] []) draft submitted.
Definition closed_publish : Transition Log unit :=
  mkTransition (mkAction "publish" [untouched; never] []) draft published.
Definition review : Transition Log unit :=
  mkTransition (mkAction "review" [] []) submitted published.

(** An index built from a sequence that supplies draft -> submitted
    twice. *)
Definition first_try : Transition Log unit :=
  mkTransition (mkAction "first_try" [] []) draft submitted.
Definition shortcut : Transition Log unit :=
  mkTransition (mkAction "shortcut" [] []) draft published.
Definition second_try : Transition Log unit :=
  mkTransition (mkAction "second_try" [] []) draft submitted.

End Demo.

(** ** The generator behind [available]

    [Transitions.available] is written with [yield]: a caller may take
    one transition at a time.  The state of a started generator is what
    is left of [_edges[origin].items()]. *)
Section Generator.
Context {Host NS : Type}.

(** [next(gen)]: run the loop up to the next [yield].  [None] is
    [StopIteration]; otherwise the transition yielded and the items still
    to visit. *)
Fixpoint available_next (items : list (WorkflowState * Transition Host NS))
         (ns : NS)
  : Cmd Host (option (Transition Host NS *
                      list (WorkflowState * Transition Host NS))) :=
  match items with
  | [] => ret None
  | (_, trn) :: rest =>
      error <- check_constraints (action trn) ns ;;
      match error with
      | None => ret (Some (trn, rest))
      | Some _ => available_next rest ns
      end
  end.

(** [tuple(gen)]: call [next] until [StopIteration].  [fuel] bounds the
    number of calls; [None] means it ran out. *)
Fixpoint tuple_of (fuel : nat)
         (items : list (WorkflowState * Transition Host NS)) (ns : NS)
         (it : Item Host)
  : option (result (list (Transition Host NS)) * Item Host) :=
  match fuel with
  | O => None
  | S fuel' =>
      match available_next items ns it with
      | (Returns None, it') => Some (Returns [], it')
      | (Returns (Some (trn, rest)), it') =>
          match tuple_of fuel' rest ns it' with
          | Some (Returns yielded, it'') => Some (Returns (trn :: yielded), it'')
          | Some (Raises e, it'') => Some (Raises e, it'')
          | None => None
          end
      | (Raises e, it') => Some (Raises e, it')
      end
  end.

(** An exception that neither [except] clause of the aggregation loops
    catches. *)
Definition uncaught (e : exn) : Prop :=
  match e with
  | Raise_Error _ | Raise_ConstraintsErrors _ => False
  | _ => True
  end.

(** The guards of an action return an aggregate on an entity, which they
    leave alone. *)
Definition guard_fails (a : Action Host NS) (ns : NS) (it : Item Host)
  : Prop :=
  exists errors, check_constraints a ns it = (Returns (Some errors), it).

(** The failures an aggregate-or-absent holds. *)
Definition errors_of (r : Errors) : list Error :=
  match r with
  | None => []
  | Some errors => errors
  end.

(** The transitions object after a subscript of [_edges] under [k],
    with whatever the [defaultdict] added. *)
Definition after_lookup (self : Transitions Host NS) (k : WorkflowState)
  : Transitions Host NS :=
  mkTransitions (as_tuple self) (snd (defaultdict_getitem (_edges self) k)).

End Generator.

(** Further cases on the publication workflow. *)
Module Cases.

(** A validator that fails in a way the engine does not expect. *)
Definition broken (tag : string) : Validator Demo.Log unit :=
  mkValidator (fun _ it => (Raises (OtherException tag), Demo.logged tag it)).

(** A document whose slot holds a name the enumeration does not have. *)
Definition stale : Demo.Doc := mkItem (Some "archived") [].

(** Publication guarded by an alternative none of whose branches holds. *)
Definition either : Transition Demo.Log unit :=
  mkTransition
    (mkAction "either"
              [Demo.passing "has_body";
               OR [Demo.failing "is_owner"; Demo.failing "is_admin"];
               Demo.passing "unreached"]
              [Demo.notify "announce"])
    Demo.submitted Demo.published.

Definition guarded : Workflow Demo.Log unit :=
  mkWorkflow Demo.members (Transitions_new [Demo.submit; either]) Demo.draft.

(** A workflow whose guards only look. *)
Definition quiet : Workflow Demo.Log unit :=
  mkWorkflow Demo.members
             (Transitions_new
                [Demo.open_submit; Demo.closed_publish; Demo.review])
             Demo.draft.


(** Three triggers, the second of which fails. *)
Definition relay : Transition Demo.Log unit :=
  mkTransition
    (mkAction "relay" []
              [Demo.notify "T1"; Demo.crash "T2"; Demo.notify "T3"])
    Demo.draft Demo.submitted.

Definition relayed : Workflow Demo.Log unit :=
  mkWorkflow Demo.members (Transitions_new [relay]) Demo.draft.

End Cases.

Unset Implicit Arguments.

(** ** Constraint aggregation *)
Section Aggregation.
Context {Host NS : Type}.
Implicit Types (vs : list (Validator Host NS)) (ns : NS) (it : Item Host).

Lemma evaluate_all_length vs ns : forall it,
  List.length (fst (evaluate_all vs ns it)) = List.length vs.
Proof.
  induction vs as [|v rest IH]; intros it; simpl; [reflexivity|].
  destruct (validate v ns it) as [o it'].
  specialize (IH it'). destruct (evaluate_all rest ns it') as [os it''].
  simpl in *. now rewrite IH.
Qed.

(** The loop of [resolve_validators] on validators that pass or fail
    once: it goes through the whole list and appends each failure. *)
Lemma resolve_loop_collects vs ns : forall errors it,
  (forall v, In v vs -> passes_or_fails_once v ns) ->
  resolve_loop vs ns errors it =
  (Returns (errors ++ single_failures (fst (evaluate_all vs ns it))),
   snd (evaluate_all vs ns it)).
Proof.
  induction vs as [|v rest IH]; intros errors it Hvs; simpl.
  - now rewrite app_nil_r.
  - assert (Hrest : forall u, In u rest -> passes_or_fails_once u ns)
      by (intros u Hu; apply Hvs; now right).
    destruct (Hvs v (or_introl eq_refl) it) as [it' [Hp | [e Hf]]].
    + rewrite Hp, (IH errors it' Hrest).
      destruct (evaluate_all rest ns it') as [os it'']. reflexivity.
    + rewrite Hf, (IH (errors ++ [e]) it' Hrest).
      destruct (evaluate_all rest ns it') as [os it'']. simpl.
      now rewrite <- app_assoc.
Qed.

(** A validator that signals an aggregate stops the loop with the
    [AttributeError] of [errors.extends]. *)
Lemma resolve_loop_aggregate_raises v rest ns errors it agg it' :
  validate v ns it = (Raises (Raise_ConstraintsErrors agg), it') ->
  resolve_loop (v :: rest) ns errors it =
  (Raises (AttributeError "list" "extends"), it').
Proof. intros H. simpl. now rewrite H. Qed.

(** [OR.validate] stops at the first sub-validator that passes: the ones
    before it were evaluated and failed, the ones after it are not
    looked at. *)
Lemma OR_loop_first_pass pre v post ns : forall errors it,
  Forall is_single_failure (fst (evaluate_all pre ns it)) ->
  forall it',
  validate v ns (snd (evaluate_all pre ns it)) = (Returns tt, it') ->
  OR_loop (pre ++ v :: post) ns errors it = (Returns tt, it').
Proof.
  induction pre as [|u pre IH]; intros errors it Hpre it' Hv; simpl in *.
  - now rewrite Hv.
  - destruct (validate u ns it) as [o it1].
    specialize (IH (errors ++ match o with
                              | Raises (Raise_Error e) => [e]
                              | _ => []
                              end) it1).
    destruct (evaluate_all pre ns it1) as [os it2]. simpl in *.
    inversion Hpre as [|? ? [e ->] Hos]; subst.
    now apply IH.
Qed.

(** When every sub-validator fails once, the loop runs to its end and
    the [raise] statement after it fails on the undefined name. *)
Lemma OR_loop_all_fail vs ns : forall errors it,
  Forall is_single_failure (fst (evaluate_all vs ns it)) ->
  OR_loop vs ns errors it =
  (Raises (NameError "ConstraintsError"), snd (evaluate_all vs ns it)).
Proof.
  induction vs as [|u vs IH]; intros errors it Hvs; simpl in *.
  - reflexivity.
  - destruct (validate u ns it) as [o it1].
    specialize (IH (errors ++ match o with
                              | Raises (Raise_Error e) => [e]
                              | _ => []
                              end) it1).
    destruct (evaluate_all vs ns it1) as [os it2]. simpl in *.
    inversion Hvs as [|? ? [e ->] Hos]; subst.
    now apply IH.
Qed.

(** The loop of [resolve_validators] goes through a prefix of
    well-behaved validators and carries on with the rest. *)
Lemma resolve_loop_app pre rest ns : forall errors it,
  (forall u, In u pre -> passes_or_fails_once u ns) ->
  resolve_loop (pre ++ rest) ns errors it =
  resolve_loop rest ns
               (errors ++ single_failures (fst (evaluate_all pre ns it)))
               (snd (evaluate_all pre ns it)).
Proof.
  induction pre as [|u pre IH]; intros errors it Hpre; simpl.
  - now rewrite app_nil_r.
  - assert (Hrest : forall w, In w pre -> passes_or_fails_once w ns)
      by (intros w Hw; apply Hpre; now right).
    destruct (Hpre u (or_introl eq_refl) it) as [it1 [Hp | [e Hf]]].
    + rewrite Hp, (IH errors it1 Hrest).
      now destruct (evaluate_all pre ns it1).
    + rewrite Hf, (IH (errors ++ [e]) it1 Hrest).
      destruct (evaluate_all pre ns it1). simpl. now rewrite <- app_assoc.
Qed.

(** C9. A constraint that signals an aggregate is not flattened into the
    running list: the handler calls [errors.extends], which a list does
    not have.  Whatever the constraints before it collected, and
    whatever comes after it, [resolve_validators] ends with that
    [AttributeError] on the entity the constraint left. *)
Theorem resolve_validators_aggregate_signal pre v post ns it agg it' :
  (forall u, In u pre -> passes_or_fails_once u ns) ->
  validate v ns (snd (evaluate_all pre ns it)) =
    (Raises (Raise_ConstraintsErrors agg), it') ->
  resolve_validators (pre ++ v :: post) ns it =
  (Raises (AttributeError "list" "extends"), it').
Proof.
  intros Hpre Hv. unfold resolve_validators, bind.
  rewrite (resolve_loop_app pre (v :: post) ns [] it Hpre).
  now rewrite (resolve_loop_aggregate_raises v post ns _ _ agg it' Hv).
Qed.

(** C5. [OR.validate] returns at the first sub-validator that passes,
    without evaluating the ones after it.  When every sub-validator
    fails once it does not signal an aggregate of the failures: the
    [raise] statement names [ConstraintsError], which is not defined,
    and a [NameError] comes out instead. *)
Theorem OR_validate_alternatives ns it :
  (forall pre v post it',
     Forall is_single_failure (fst (evaluate_all pre ns it)) ->
     validate v ns (snd (evaluate_all pre ns it)) = (Returns tt, it') ->
     validate (OR (pre ++ v :: post)) ns it = (Returns tt, it')) /\
  (forall vs,
     Forall is_single_failure (fst (evaluate_all vs ns it)) ->
     validate (OR vs) ns it =
     (Raises (NameError "ConstraintsError"), snd (evaluate_all vs ns it))).
Proof.
  split.
  - intros pre v post it' Hpre Hv.
    exact (OR_loop_first_pass pre v post ns [] it Hpre it' Hv).
  - intros vs Hvs. exact (OR_loop_all_fail vs ns [] it Hvs).
Qed.

(** C4. On constraints that each pass or signal one failure,
    [resolve_validators] evaluates every constraint of the list, in
    order and without stopping at a failure, and returns the aggregate of
    exactly the failures signalled, in the order of the list, or [None]
    when there is none. *)
Theorem resolve_validators_collects_every_failure vs ns it :
  (forall v, In v vs -> passes_or_fails_once v ns) ->
  List.length (fst (evaluate_all vs ns it)) = List.length vs /\
  resolve_validators vs ns it =
  (Returns (aggregate_or_absent
              (single_failures (fst (evaluate_all vs ns it)))),
   snd (evaluate_all vs ns it)).
Proof.
  intros Hvs. split; [apply evaluate_all_length|].
  unfold resolve_validators, bind.
  rewrite (resolve_loop_collects vs ns [] it Hvs). simpl.
  now destruct (single_failures (fst (evaluate_all vs ns it))).
Qed.

End Aggregation.

(** Over [C1 fails, C2 passes, C3 fails] the aggregate holds the failures
    of C1 and C3, in that order, and the log shows the three calls. *)
Lemma resolve_validators_fail_pass_fail :
  resolve_validators
    [Demo.failing "C1"; Demo.passing "C2"; Demo.failing "C3"] tt Demo.fresh =
  (Returns (Some [mkError "C1"; mkError "C3"]),
   mkItem None ["C1"; "C2"; "C3"]).
Proof.
  refine (proj2 (resolve_validators_collects_every_failure
                   [Demo.failing "C1"; Demo.passing "C2"; Demo.failing "C3"]
                   tt Demo.fresh _)).
  intros v [<- | [<- | [<- | []]]] it; eexists; simpl; eauto.
Defined.

(** C9 on [C1 fails, C2 signals an aggregate, C3 passes]: the call ends
    in [AttributeError] and the log shows that C3 was never reached. *)
Lemma resolve_validators_aggregate_signal_demo :
  resolve_validators
    [Demo.failing "C1"; Demo.failing_many "C2" ["a"; "b"]; Demo.passing "C3"]
    tt Demo.fresh =
  (Raises (AttributeError "list" "extends"), mkItem None ["C1"; "C2"]).
Proof.
  refine (resolve_validators_aggregate_signal
            [Demo.failing "C1"] (Demo.failing_many "C2" ["a"; "b"])
            [Demo.passing "C3"] tt Demo.fresh
            [mkError "a"; mkError "b"] (mkItem None ["C1"; "C2"]) _ _).
  - intros u [<- | []] it. eexists. right. eexists. reflexivity.
  - reflexivity.
Defined.

(** C5 over [C1 fails, C2 passes, C3]: the call returns at C2 and the log
    shows that C3 was not called; over [C1 fails, C2 fails]: the call
    ends in [NameError]. *)
Lemma OR_validate_alternatives_demo :
  validate (OR [Demo.failing "C1"; Demo.passing "C2"; Demo.passing "C3"])
           tt Demo.fresh =
  (Returns tt, mkItem None ["C1"; "C2"]) /\
  validate (OR [Demo.failing "C1"; Demo.failing "C2"]) tt Demo.fresh =
  (Raises (NameError "ConstraintsError"), mkItem None ["C1"; "C2"]).
Proof.
  destruct (OR_validate_alternatives (Host := Demo.Log) tt Demo.fresh)
    as [Hpass Hfail].
  split.
  - apply (Hpass [Demo.failing "C1"] (Demo.passing "C2")
                 [Demo.passing "C3"]).
    + repeat constructor. eexists. reflexivity.
    + reflexivity.
  - apply (Hfail [Demo.failing "C1"; Demo.failing "C2"]).
    repeat constructor; eexists; reflexivity.
Defined.

(** ** The workflow definition *)
Section WorkflowFacts.
Context {Host NS : Type}.
Implicit Types (w : Workflow Host NS) (ns : NS) (it : Item Host).

(** Constructing a workflow from the name of a member stores the member. *)
Lemma Workflow_init_by_name members (trs : Transitions Host NS) s m :
  dict_get String.eqb members s = Some m ->
  Workflow_init members trs (KStr s) = Returns (mkWorkflow members trs m).
Proof. intros H. unfold Workflow_init. simpl. now rewrite H. Qed.

(** C10. Constructing a workflow with an already resolved member as
    the default does not give what constructing it with the member's
    name gives: the subscript [self.states[default_state]] looks the
    argument up among the member names, finds the name and stores the
    member, but does not find the member and raises [KeyError]. *)
Theorem Workflow_init_resolved_member members (trs : Transitions Host NS) m :
  dict_get String.eqb members (name m) = Some m ->
  Workflow_init members trs (KStr (name m)) =
    Returns (mkWorkflow members trs m) /\
  Workflow_init members trs (KMember m) = Raises (KeyError (KMember m)) /\
  Workflow_init members trs (KMember m) <>
  Workflow_init members trs (KStr (name m)).
Proof.
  intros Hm.
  assert (Hname := Workflow_init_by_name members trs (name m) m Hm).
  split; [exact Hname|]. split; [reflexivity|].
  rewrite Hname. discriminate.
Qed.

(** C8, as the code has it.  [get_state] returns the default state for
    [None] and, for a string, the member the enumeration holds under
    that name, failing with [KeyError] when there is none (the empty
    string included).  It is the [state] property that maps an empty
    slot to the default: for every entity whose slot holds [None] or the
    empty string, the current state is the workflow's default state. *)
Theorem current_state_defaults w ns it s :
  __workflow_state__ it = None \/ __workflow_state__ it = Some "" ->
  get_state w KNone = Returns (default_state w) /\
  get_state w (KStr s) =
    match dict_get String.eqb (states w) s with
    | Some m => Returns m
    | None => Raises (KeyError (KStr s))
    end /\
  WorkflowItem_state (Workflow_call w ns) it = (Returns (default_state w), it).
Proof.
  intros Hslot. repeat split.
  unfold WorkflowItem_state. now destruct Hslot as [-> | ->].
Qed.

End WorkflowFacts.

(** C10 on the publication workflow: by name the default is stored, by
    member the construction fails. *)
Lemma Workflow_init_resolved_member_demo :
  Workflow_init Demo.members (transitions Demo.workflow) (KStr "draft") =
    Returns Demo.workflow /\
  Workflow_init Demo.members (transitions Demo.workflow)
                (KMember Demo.draft) =
    Raises (KeyError (KMember Demo.draft)).
Proof.
  destruct (Workflow_init_resolved_member
              Demo.members (transitions Demo.workflow) Demo.draft eq_refl)
    as (Hname & Hmember & _).
  split; [exact Hname | exact Hmember].
Defined.

(** C8 at an entity whose slot holds the empty string. *)
Lemma current_state_defaults_demo :
  get_state Demo.workflow KNone = Returns Demo.draft /\
  get_state Demo.workflow (KStr "submitted") = Returns Demo.submitted /\
  WorkflowItem_state Demo.bound (mkItem (Some "") []) =
  (Returns Demo.draft, mkItem (Some "") []).
Proof.
  exact (current_state_defaults Demo.workflow tt (mkItem (Some "") [])
                                "submitted" (or_intror eq_refl)).
Defined.

(** C8 as stated fails: [get_state] does not return the default state
    for the empty identifier, it raises [KeyError]. *)
Lemma get_state_empty_identifier :
  get_state Demo.workflow (KStr "") = Raises (KeyError (KStr "")) /\
  get_state Demo.workflow (KStr "") <> Returns (default_state Demo.workflow).
Proof. split; [reflexivity | discriminate]. Qed.

(** ** Committing a transition *)
Section Commit.
Context {Host NS : Type}.
Implicit Types (self : WorkflowItem Host NS) (it : Item Host)
         (trn : Transition Host NS).

(** After the resolution steps, [set_state] is guard evaluation, then the
    trigger loop, then the write. *)
Lemma set_state_resolved self target_state it tgt st trn :
  resolves self target_state it tgt st trn ->
  set_state self target_state it =
  match check_constraints (action trn) (namespace self) it with
  | (Returns (Some errors), it1) =>
      (Raises (Raise_ConstraintsErrors errors), it1)
  | (Returns None, it1) =>
      match run_triggers (triggers (action trn)) (namespace self) it1 with
      | (Returns _, it2) => (Returns tt, mkItem (Some (name tgt)) (host it2))
      | (Raises e, it2) => (Raises e, it2)
      end
  | (Raises e, it1) => (Raises e, it1)
  end.
Proof.
  intros (Htgt & Hst & Hfind).
  unfold set_state, bind, lift. rewrite Htgt, Hst, Hfind.
  destruct (check_constraints (action trn) (namespace self) it)
    as [[[errors|]|e] it1]; reflexivity.
Qed.

(** The trigger loop returns exactly when every trigger returned, each
    run on the entity its predecessor left. *)
Lemma run_triggers_returns trgs (ns : NS) : forall it it',
  run_triggers trgs ns it = (Returns tt, it') <->
  ran_in_order ns trgs it it'.
Proof.
  induction trgs as [|t rest IH]; intros it it'; simpl; split.
  - unfold ret. intros [= <-]. constructor.
  - intros H. inversion H; subst. reflexivity.
  - unfold bind. destruct (t ns it) as [[[]|e] it1] eqn:Ht; [|discriminate].
    intros H. econstructor; [eassumption|]. now apply IH.
  - intros H. inversion H as [|? ? ? it1 ? Ht Hrest]; subst.
    unfold bind. rewrite Ht. now apply IH.
Qed.

(** Guard evaluation leaves the slot alone when each validator does. *)
Lemma resolve_loop_keeps_slot vs (ns : NS) : forall errors it,
  (forall v, In v vs -> keeps_slot (validate v ns)) ->
  __workflow_state__ (snd (resolve_loop vs ns errors it)) =
  __workflow_state__ it.
Proof.
  induction vs as [|v rest IH]; intros errors it Hvs; simpl; [reflexivity|].
  assert (Hv := Hvs v (or_introl eq_refl) it).
  assert (Hrest : forall u, In u rest -> keeps_slot (validate u ns))
    by (intros u Hu; apply Hvs; now right).
  destruct (validate v ns it) as [[[]|e] it1]; simpl in Hv.
  - now rewrite IH.
  - destruct e; simpl; try assumption. now rewrite IH.
Qed.

Lemma check_constraints_keeps_slot (a : Action Host NS) (ns : NS) it :
  (forall v, In v (constraints a) -> keeps_slot (validate v ns)) ->
  __workflow_state__ (snd (check_constraints a ns it)) =
  __workflow_state__ it.
Proof.
  intros Hvs. unfold check_constraints.
  destruct (constraints a) as [|v rest] eqn:Hc; [reflexivity|].
  unfold resolve_validators, bind.
  assert (H := resolve_loop_keeps_slot (v :: rest) ns [] it Hvs).
  destruct (resolve_loop (v :: rest) ns [] it) as [[[|e errors]|e] it1];
    exact H.
Qed.

(** C1. When the guards of the resolved transition yield an aggregate,
    [set_state] raises exactly that aggregate; the entity is left as guard
    evaluation left it, whatever the triggers of the action are, so none
    of them ran and nothing was written; with validators that keep the
    slot, the recorded state identifier is the one before the call. *)
Theorem set_state_guard_failure self target_state it tgt st trn errors it1 :
  resolves self target_state it tgt st trn ->
  check_constraints (action trn) (namespace self) it =
    (Returns (Some errors), it1) ->
  set_state self target_state it =
    (Raises (Raise_ConstraintsErrors errors), it1) /\
  ((forall v, In v (constraints (action trn)) ->
              keeps_slot (validate v (namespace self))) ->
   __workflow_state__ (snd (set_state self target_state it)) =
   __workflow_state__ it).
Proof.
  intros Hres Hguard.
  rewrite (set_state_resolved self target_state it tgt st trn Hres), Hguard.
  split; [reflexivity|]. intros Hkeep. simpl.
  rewrite <- (check_constraints_keeps_slot (action trn) (namespace self) it
                                           Hkeep).
  now rewrite Hguard.
Qed.

(** C2. With triggers [[T1; T2]], [T1] returning and [T2] raising [e]:
    [set_state] raises [e] itself, and the entity is the one [T2] left
    when it raised, which [T2] received from [T1]: the effect of [T1] is
    there, and the slot holds what the guards and the two triggers left
    in it, not the target written by the engine. *)
Theorem set_state_trigger_failure
        self target_state it tgt st trn T1 T2 it1 it2 it3 e :
  resolves self target_state it tgt st trn ->
  triggers (action trn) = [T1; T2] ->
  check_constraints (action trn) (namespace self) it = (Returns None, it1) ->
  T1 (namespace self) it1 = (Returns tt, it2) ->
  T2 (namespace self) it2 = (Raises e, it3) ->
  set_state self target_state it = (Raises e, it3) /\
  (__workflow_state__ it1 = __workflow_state__ it ->
   keeps_slot (T1 (namespace self)) -> keeps_slot (T2 (namespace self)) ->
   __workflow_state__ (snd (set_state self target_state it)) =
   __workflow_state__ it).
Proof.
  intros Hres Htrgs Hguard H1 H2.
  rewrite (set_state_resolved self target_state it tgt st trn Hres), Hguard.
  rewrite Htrgs. simpl. unfold bind. rewrite H1, H2.
  split; [reflexivity|]. intros Hg K1 K2. simpl.
  specialize (K1 it1). specialize (K2 it2). rewrite H1 in K1. rewrite H2 in K2.
  simpl in *. congruence.
Qed.

(** A commit whose steps all go through returns and writes the name of
    the target. *)
Lemma set_state_commits self target_state it tgt st trn it1 it2 :
  resolves self target_state it tgt st trn ->
  check_constraints (action trn) (namespace self) it = (Returns None, it1) ->
  ran_in_order (namespace self) (triggers (action trn)) it1 it2 ->
  set_state self target_state it =
  (Returns tt, mkItem (Some (name tgt)) (host it2)).
Proof.
  intros Hres Hguard Hran.
  rewrite (set_state_resolved self target_state it tgt st trn Hres), Hguard.
  apply run_triggers_returns in Hran. now rewrite Hran.
Qed.

(** The name written by a commit is the key under which the enumeration
    holds the target: read back, the slot gives the target state. *)
Lemma committed_state_reads_back self tgt (h : Host) :
  dict_get String.eqb (states (workflow self)) (name tgt) = Some tgt ->
  name tgt <> "" ->
  WorkflowItem_state self (mkItem (Some (name tgt)) h) =
  (Returns tgt, mkItem (Some (name tgt)) h).
Proof.
  intros Hmember Hname. unfold WorkflowItem_state. simpl.
  apply String.eqb_neq in Hname. rewrite Hname. simpl. now rewrite Hmember.
Qed.

(** C3. In a commit that returns, the guards passed, every trigger of
    the action ran in the declared order and returned, and the write
    came after the last of them: the entity is the one the triggers
    left, with the name of the target state in the slot. *)
Theorem set_state_success self target_state it it' :
  set_state self target_state it = (Returns tt, it') ->
  exists tgt st trn it1 it2,
    resolves self target_state it tgt st trn /\
    check_constraints (action trn) (namespace self) it = (Returns None, it1) /\
    ran_in_order (namespace self) (triggers (action trn)) it1 it2 /\
    it' = mkItem (Some (name tgt)) (host it2).
Proof.
  intros H. unfold set_state, bind, lift in H.
  destruct (states_getitem (states (workflow self)) (KStr target_state))
    as [tgt|e] eqn:Htgt; [|discriminate].
  assert (Hread : exists r, WorkflowItem_state self it = (r, it))
    by (unfold WorkflowItem_state;
        destruct (truthy (__workflow_state__ it)); eauto).
  destruct Hread as [r Hst]. rewrite Hst in H.
  destruct r as [st|e]; [|discriminate].
  destruct (find (transitions (workflow self)) st tgt)
    as [trn|e] eqn:Hfind; [|discriminate].
  destruct (check_constraints (action trn) (namespace self) it)
    as [[[errors|]|e] it1] eqn:Hguard; try discriminate.
  destruct (run_triggers (triggers (action trn)) (namespace self) it1)
    as [[[]|e] it2] eqn:Hrun; [|discriminate].
  unfold write_state in H. injection H as <-.
  exists tgt, st, trn, it1, it2. repeat split; try assumption.
  now apply run_triggers_returns.
Qed.

End Commit.

(** C1 on a submitted document whose publication guards fail twice: the
    aggregate of both failures is raised, the log holds the three guard
    calls and no trigger, and the slot still says submitted. *)
Lemma set_state_guard_failure_demo :
  set_state Demo.bound "published" (mkItem (Some "submitted") []) =
  (Raises (Raise_ConstraintsErrors
             [mkError "not_reviewed"; mkError "embargo"]),
   mkItem (Some "submitted") ["not_reviewed"; "has_body"; "embargo"]) /\
  __workflow_state__
    (snd (set_state Demo.bound "published" (mkItem (Some "submitted") []))) =
  Some "submitted".
Proof.
  destruct (set_state_guard_failure
              Demo.bound "published" (mkItem (Some "submitted") [])
              Demo.published Demo.submitted Demo.publish
              [mkError "not_reviewed"; mkError "embargo"]
              (mkItem (Some "submitted")
                      ["not_reviewed"; "has_body"; "embargo"]))
    as [Hraise Hslot].
  - repeat split.
  - reflexivity.
  - split; [exact Hraise|]. apply Hslot.
    intros v [<- | [<- | [<- | []]]] it; reflexivity.
Defined.

(** C2 on a published document whose retraction has triggers
    [[T1; T2]] with [T2] raising: the exception of [T2] comes out, the
    log shows that [T1] ran, and the slot still says published. *)
Lemma set_state_trigger_failure_demo :
  set_state Demo.bound "draft" (mkItem (Some "published") []) =
  (Raises (OtherException "T2"), mkItem (Some "published") ["T1"; "T2"]) /\
  __workflow_state__
    (snd (set_state Demo.bound "draft" (mkItem (Some "published") []))) =
  Some "published".
Proof.
  destruct (set_state_trigger_failure
              Demo.bound "draft" (mkItem (Some "published") [])
              Demo.draft Demo.published Demo.retract
              (Demo.notify "T1") (Demo.crash "T2")
              (mkItem (Some "published") [])
              (mkItem (Some "published") ["T1"])
              (mkItem (Some "published") ["T1"; "T2"])
              (OtherException "T2"))
    as [Hraise Hslot].
  - repeat split.
  - reflexivity.
  - reflexivity.
  - reflexivity.
  - reflexivity.
  - split; [exact Hraise|].
    apply Hslot; [reflexivity | intros it; reflexivity ..].
Defined.

(** C3 on a fresh document submitted: guard, [T1], [T2], then the write
    of the target's name. *)
Lemma set_state_success_demo :
  exists tgt st trn it1 it2,
    resolves Demo.bound "submitted" Demo.fresh tgt st trn /\
    check_constraints (action trn) tt Demo.fresh = (Returns None, it1) /\
    ran_in_order tt (triggers (action trn)) it1 it2 /\
    mkItem (Some "submitted") ["has_body"; "T1"; "T2"] =
    mkItem (Some (name tgt)) (host it2).
Proof.
  exact (set_state_success
           Demo.bound "submitted" Demo.fresh
           (mkItem (Some "submitted") ["has_body"; "T1"; "T2"]) eq_refl).
Defined.

(** ** Facts about insertion-ordered dictionaries *)
Section DictFacts.
Context {K V : Type} (eqb : K -> K -> bool).
Hypothesis eqb_refl : forall k, eqb k k = true.
Hypothesis eqb_sym : forall a b, eqb a b = eqb b a.
Hypothesis eqb_trans :
  forall a b c, eqb a b = true -> eqb b c = true -> eqb a c = true.

Lemma eqb_congr a b c : eqb a b = true -> eqb c a = eqb c b.
Proof.
  intros Hab. destruct (eqb c a) eqn:Hca, (eqb c b) eqn:Hcb; trivial.
  - rewrite (eqb_trans c a b Hca Hab) in Hcb. discriminate.
  - rewrite eqb_sym in Hab. rewrite (eqb_trans c b a Hcb Hab) in Hca.
    discriminate.
Qed.

Lemma in_keys_congr ks a b :
  eqb a b = true -> in_keys eqb ks a = in_keys eqb ks b.
Proof.
  intros Hab. unfold in_keys. induction ks as [|k ks IH]; simpl; trivial.
  now rewrite IH, (eqb_congr a b k Hab).
Qed.

Lemma in_keys_app ks ks' k :
  in_keys eqb (ks ++ ks') k = in_keys eqb ks k || in_keys eqb ks' k.
Proof. unfold in_keys. apply existsb_app. Qed.

Lemma in_keys_false ks k k' :
  in_keys eqb ks k = false -> In k' ks -> eqb k' k = false.
Proof.
  unfold in_keys. induction ks as [|a ks IH]; simpl; [easy|].
  intros H [-> | Hin]; apply orb_false_iff in H as [Ha Hks]; auto.
Qed.

Lemma dict_get_congr (d : list (K * V)) a b :
  eqb a b = true -> dict_get eqb d a = dict_get eqb d b.
Proof.
  intros Hab. induction d as [|[k v] d IH]; simpl; trivial.
  now rewrite IH, (eqb_congr a b k Hab).
Qed.

Lemma dict_get_set_same (d : list (K * V)) k k' v :
  eqb k k' = true -> dict_get eqb (dict_set eqb d k v) k' = Some v.
Proof.
  intros Hk. induction d as [|[a w] d IH]; simpl.
  - now rewrite Hk.
  - destruct (eqb a k) eqn:Ha; simpl.
    + now rewrite <- (eqb_congr k k' a Hk), Ha.
    + now rewrite <- (eqb_congr k k' a Hk), Ha.
Qed.

Lemma dict_get_set_other (d : list (K * V)) k k' v :
  eqb k k' = false ->
  dict_get eqb (dict_set eqb d k v) k' = dict_get eqb d k'.
Proof.
  intros Hk. induction d as [|[a w] d IH]; simpl.
  - now rewrite Hk.
  - destruct (eqb a k) eqn:Ha; simpl.
    + destruct (eqb a k') eqn:Ha'; trivial.
      rewrite eqb_sym in Ha. rewrite (eqb_trans k a k' Ha Ha') in Hk.
      discriminate.
    + now rewrite IH.
Qed.

Lemma dict_get_None_in_keys (d : list (K * V)) k :
  dict_get eqb d k = None <-> in_keys eqb (map fst d) k = false.
Proof.
  unfold in_keys. induction d as [|[a w] d IH]; simpl; [easy|].
  destruct (eqb a k); simpl; [easy | exact IH].
Qed.

(** Assignment keeps the keys in place and appends a new one. *)
Lemma dict_set_keys (d : list (K * V)) k v :
  map fst (dict_set eqb d k v) =
  if in_keys eqb (map fst d) k then map fst d else map fst d ++ [k].
Proof.
  unfold in_keys. induction d as [|[a w] d IH]; simpl; trivial.
  destruct (eqb a k) eqn:Ha; simpl; trivial.
  rewrite IH. now destruct (existsb (fun k' => eqb k' k) (map fst d)).
Qed.

Lemma dict_set_wf (d : list (K * V)) k v :
  dict_wf eqb d -> dict_wf eqb (dict_set eqb d k v).
Proof.
  induction d as [|[a w] d IH]; simpl.
  - intros _. split; trivial.
  - intros [Ha Hd]. destruct (eqb a k) eqn:Hak; simpl.
    + split; assumption.
    + split; [|now apply IH]. rewrite dict_set_keys.
      destruct (in_keys eqb (map fst d) k); trivial.
      rewrite in_keys_app, Ha. simpl.
      now rewrite eqb_sym, Hak.
Qed.

Lemma flat_map_agree {A B} (f g : A -> list B) l :
  (forall x, In x l -> f x = g x) -> flat_map f l = flat_map g l.
Proof.
  induction l as [|x l IH]; simpl; trivial.
  intros H. rewrite (H x (or_introl eq_refl)), IH; auto.
Qed.

(** The values of a dictionary are the values found under its keys,
    read in key order. *)
Lemma dict_values_by_key (d : list (K * V)) :
  dict_wf eqb d ->
  map snd d =
  flat_map (fun k => match dict_get eqb d k with
                     | Some v => [v]
                     | None => []
                     end)
           (map fst d).
Proof.
  induction d as [|[a w] d IH]; simpl; trivial.
  intros [Ha Hd]. rewrite eqb_refl. simpl. f_equal.
  rewrite (IH Hd) at 1. apply flat_map_agree. intros k Hk.
  now rewrite eqb_sym, (in_keys_false _ _ _ Ha Hk).
Qed.

Lemma filter_filter_and {A} (p q : A -> bool) l :
  filter p (filter q l) = filter (fun x => q x && p x) l.
Proof.
  induction l as [|x l IH]; simpl; trivial.
  destruct (q x); simpl; [destruct (p x)|]; now rewrite IH.
Qed.

Lemma dedup_first_incl ks k : In k (dedup_first eqb ks) -> In k ks.
Proof.
  revert k. induction ks as [|a ks IH]; simpl; [easy|].
  intros k [-> | Hk]; [now left | right].
  apply filter_In in Hk as [Hk _]. now apply IH.
Qed.

End DictFacts.

(** [State.__eq__] is an equivalence. *)
Lemma State_eqb_refl s : State_eqb s s = true.
Proof. apply String.eqb_refl. Qed.

Lemma State_eqb_sym a b : State_eqb a b = State_eqb b a.
Proof. apply String.eqb_sym. Qed.

Lemma State_eqb_trans a b c :
  State_eqb a b = true -> State_eqb b c = true -> State_eqb a c = true.
Proof.
  unfold State_eqb. rewrite !String.eqb_eq. congruence.
Qed.

(** ** The transition index *)
Section Index.
Context {Host NS : Type}.
Implicit Types (t u : Transition Host NS) (ts : list (Transition Host NS))
         (o g : WorkflowState) (edges : Edges Host NS).

(** A subscript of the [defaultdict] does not change what later
    subscripts return. *)
Lemma defaultdict_getitem_stable edges k o :
  fst (defaultdict_getitem (snd (defaultdict_getitem edges k)) o) =
  fst (defaultdict_getitem edges o).
Proof.
  unfold defaultdict_getitem at 2.
  destruct (dict_get State_eqb edges k) eqn:Hk; simpl; trivial.
  unfold defaultdict_getitem.
  destruct (State_eqb k o) eqn:Hko.
  - rewrite (dict_get_set_same State_eqb State_eqb_sym State_eqb_trans
               edges k o [] Hko).
    rewrite <- (dict_get_congr State_eqb State_eqb_sym State_eqb_trans
                  edges k o Hko), Hk.
    reflexivity.
  - rewrite (dict_get_set_other State_eqb State_eqb_sym State_eqb_trans
               edges k o [] Hko).
    now destruct (dict_get State_eqb edges o).
Qed.

(** One turn of the construction loop, seen from origin [o]. *)
Lemma add_edge_inner edges t o :
  fst (defaultdict_getitem (add_edge edges t) o) =
  index_step o (fst (defaultdict_getitem edges o)) t.
Proof.
  unfold add_edge, index_step.
  assert (Hin : fst (defaultdict_getitem edges (origin t)) =
                match dict_get State_eqb edges (origin t) with
                | Some d => d
                | None => []
                end)
    by (unfold defaultdict_getitem;
        now destruct (dict_get State_eqb edges (origin t))).
  destruct (defaultdict_getitem edges (origin t)) as [inner edges'] eqn:Hd.
  simpl in Hin.
  assert (Hstable := defaultdict_getitem_stable edges (origin t) o).
  rewrite Hd in Hstable. simpl in Hstable.
  destruct (State_eqb (origin t) o) eqn:Hto.
  - unfold defaultdict_getitem at 1.
    rewrite (dict_get_set_same State_eqb State_eqb_sym State_eqb_trans
               edges' _ o _ Hto). simpl.
    f_equal. rewrite Hin. unfold defaultdict_getitem.
    rewrite (dict_get_congr State_eqb State_eqb_sym State_eqb_trans
               edges _ _ Hto).
    now destruct (dict_get State_eqb edges o).
  - rewrite <- Hstable. unfold defaultdict_getitem.
    rewrite (dict_get_set_other State_eqb State_eqb_sym State_eqb_trans
               edges' _ o _ Hto).
    now destruct (dict_get State_eqb edges' o).
Qed.

Lemma edges_inner ts : forall edges o,
  fst (defaultdict_getitem (fold_left add_edge ts edges) o) =
  fold_left (index_step o) ts (fst (defaultdict_getitem edges o)).
Proof.
  induction ts as [|t ts IH]; intros edges o; simpl; trivial.
  now rewrite IH, add_edge_inner.
Qed.

(** What [_edges[o]] is after construction. *)
Lemma Transitions_new_inner ts o :
  fst (defaultdict_getitem (_edges (Transitions_new ts)) o) =
  fold_left (index_step o) ts [].
Proof. unfold Transitions_new. simpl. now rewrite edges_inner. Qed.

Lemma index_lookup ts o g : forall d,
  dict_get State_eqb (fold_left (index_step o) ts d) g =
  match last_supplied ts o g with
  | Some t => Some t
  | None => dict_get State_eqb d g
  end.
Proof.
  induction ts as [|t ts IH]; intros d; simpl; trivial.
  rewrite IH. destruct (last_supplied ts o g); trivial.
  unfold index_step, same_pair.
  destruct (State_eqb (origin t) o); simpl; trivial.
  destruct (State_eqb (target t) g) eqn:Hg.
  - now apply (dict_get_set_same State_eqb State_eqb_sym State_eqb_trans).
  - now apply (dict_get_set_other State_eqb State_eqb_sym State_eqb_trans).
Qed.

Lemma last_supplied_None ts o g :
  last_supplied ts o g = None <->
  forall u, In u ts -> same_pair o g u = false.
Proof.
  induction ts as [|t ts IH]; simpl; [easy|].
  destruct (last_supplied ts o g) as [u|].
  - split; [discriminate|]. intros H.
    destruct IH as [_ IH].
    discriminate (IH (fun v Hv => H v (or_intror Hv))).
  - destruct (same_pair o g t) eqn:Ht.
    + split; [discriminate|]. intros H.
      rewrite (H t (or_introl eq_refl)) in Ht. discriminate.
    + split; [|reflexivity]. intros _ u [<- | Hu]; [assumption|].
      now apply IH.
Qed.

(** [last_supplied] in terms of positions in the sequence. *)
Lemma last_supplied_Some ts o g t :
  last_supplied ts o g = Some t <->
  exists pre post,
    ts = pre ++ t :: post /\ same_pair o g t = true /\
    forall u, In u post -> same_pair o g u = false.
Proof.
  split.
  - revert t. induction ts as [|a ts IH]; intros t; simpl; [discriminate|].
    destruct (last_supplied ts o g) as [u|] eqn:Hl.
    + intros [= ->]. destruct (IH t eq_refl) as (pre & post & -> & Ht & Hp).
      now exists (a :: pre), post.
    + destruct (same_pair o g a) eqn:Ha; [|discriminate].
      intros [= ->]. exists [], ts. repeat split; trivial.
      now apply last_supplied_None.
  - intros (pre & post & -> & Ht & Hp).
    induction pre as [|a pre IH]; simpl.
    + apply last_supplied_None in Hp. now rewrite Hp, Ht.
    + now rewrite IH.
Qed.

Lemma last_supplied_In ts o g t : last_supplied ts o g = Some t -> In t ts.
Proof.
  intros H. apply last_supplied_Some in H as (pre & post & -> & _).
  apply in_elt.
Qed.

(** C6. [find] on the index built from a sequence returns the
    transition supplied last for the pair asked for, and raises
    [LookupError] when the sequence has none for it.  Pairs are compared
    as the dictionary compares its keys, with [State.__eq__]. *)
Theorem find_last_supplied ts :
  (forall o g,
     find (Transitions_new ts) o g =
     match last_supplied ts o g with
     | Some t => Returns t
     | None => Raises (LookupError o g)
     end) /\
  (forall pre t post,
     ts = pre ++ t :: post ->
     (forall u, In u post -> same_pair (origin t) (target t) u = false) ->
     find (Transitions_new ts) (origin t) (target t) = Returns t) /\
  (forall o g,
     (forall u, In u ts -> same_pair o g u = false) ->
     find (Transitions_new ts) o g = Raises (LookupError o g)).
Proof.
  assert (Hfind : forall o g,
     find (Transitions_new ts) o g =
     match last_supplied ts o g with
     | Some t => Returns t
     | None => Raises (LookupError o g)
     end).
  { intros o g. unfold find.
    rewrite Transitions_new_inner, index_lookup. simpl.
    now destruct (last_supplied ts o g). }
  split; [exact Hfind|]. split.
  - intros pre t post Hts Hpost. rewrite Hfind.
    assert (Hl : last_supplied ts (origin t) (target t) = Some t).
    { apply last_supplied_Some. exists pre, post. repeat split; trivial.
      unfold same_pair. now rewrite !State_eqb_refl. }
    now rewrite Hl.
  - intros o g Hnone. rewrite Hfind.
    apply last_supplied_None in Hnone. now rewrite Hnone.
Qed.

Lemma index_keys ts o : forall d,
  map fst (fold_left (index_step o) ts d) =
  map fst d ++
  filter (fun k => negb (in_keys State_eqb (map fst d) k))
         (first_supplied_targets ts o).
Proof.
  unfold first_supplied_targets.
  induction ts as [|t ts IH]; intros d; simpl.
  - now rewrite app_nil_r.
  - rewrite IH. unfold index_step.
    destruct (State_eqb (origin t) o) eqn:Hto; simpl; trivial.
    rewrite dict_set_keys.
    destruct (in_keys State_eqb (map fst d) (target t)) eqn:Hin; simpl.
    + f_equal. rewrite filter_filter_and. apply filter_ext. intros x.
      destruct (State_eqb (target t) x) eqn:Hx; simpl; trivial.
      now rewrite <- (in_keys_congr State_eqb State_eqb_sym State_eqb_trans
                        (map fst d) _ _ Hx), Hin.
    + rewrite <- app_assoc. simpl. do 2 f_equal.
      rewrite filter_filter_and. apply filter_ext. intros x.
      rewrite in_keys_app. unfold in_keys at 2. simpl.
      now destruct (in_keys State_eqb (map fst d) x),
                   (State_eqb (target t) x).
Qed.

Lemma index_wf ts o : forall d,
  dict_wf State_eqb d -> dict_wf State_eqb (fold_left (index_step o) ts d).
Proof.
  induction ts as [|t ts IH]; intros d Hd; simpl; trivial.
  apply IH. unfold index_step. destruct (State_eqb (origin t) o); trivial.
  exact (dict_set_wf State_eqb State_eqb_sym d (target t) t Hd).
Qed.

Lemma filter_all {A} (l : list A) : filter (fun _ => true) l = l.
Proof. induction l as [|x l IH]; simpl; now rewrite ?IH. Qed.

(** The values of [_edges[o]], in the order [items()] gives them. *)
Lemma index_values ts o :
  map snd (fold_left (index_step o) ts []) = retained ts o.
Proof.
  rewrite (dict_values_by_key State_eqb State_eqb_refl State_eqb_sym)
    by (apply index_wf; exact I).
  rewrite index_keys. simpl. rewrite filter_all.
  unfold retained. apply flat_map_agree. intros g _.
  rewrite index_lookup. simpl. now destruct (last_supplied ts o g).
Qed.

Lemma retained_In ts o t : In t (retained ts o) -> In t ts.
Proof.
  unfold retained. rewrite in_flat_map. intros (g & _ & Hg).
  destruct (last_supplied ts o g) as [u|] eqn:Hl; [|easy].
  destruct Hg as [<- | []]. eapply last_supplied_In; eassumption.
Qed.

(** The loop of [available] on guards that leave the entity alone. *)
Lemma available_loop_pure (ns : NS) (it : Item Host)
      (items : list (WorkflowState * Transition Host NS)) :
  (forall t, In t (map snd items) -> pure_guard (action t) ns it) ->
  available_loop items ns it =
  (Returns (filter (fun t => guard_passes (action t) ns it) (map snd items)),
   it).
Proof.
  induction items as [|[k t] items IH]; simpl; intros H; [reflexivity|].
  destruct (H t (or_introl eq_refl)) as [r Hr].
  unfold bind. rewrite Hr, IH by (intros u Hu; apply H; now right).
  unfold guard_passes. rewrite Hr. simpl. now destruct r.
Qed.

End Index.

(** C6 on a sequence that supplies draft -> submitted twice: the second
    supply is found, and a pair never supplied is a [LookupError]. *)
Lemma find_last_supplied_demo :
  find (Transitions_new [Demo.first_try; Demo.shortcut; Demo.second_try])
       Demo.draft Demo.submitted = Returns Demo.second_try /\
  find (Transitions_new [Demo.first_try; Demo.shortcut; Demo.second_try])
       Demo.submitted Demo.draft =
  Raises (LookupError Demo.submitted Demo.draft).
Proof.
  destruct (find_last_supplied
              [Demo.first_try; Demo.shortcut; Demo.second_try])
    as (_ & Hlast & Hnone).
  split.
  - apply (Hlast [Demo.first_try; Demo.shortcut] Demo.second_try []).
    + reflexivity.
    + intros u [].
  - apply Hnone. intros u [<- | [<- | [<- | []]]]; reflexivity.
Defined.

(** ** Available transitions *)
Section Availability.
Context {Host NS : Type}.
Implicit Types (t u : Transition Host NS) (ts : list (Transition Host NS))
         (o g : WorkflowState) (ns : NS) (it : Item Host).

Lemma filter_id_in {A} (p : A -> bool) (l : list A) :
  (forall x, In x l -> p x = true) -> filter p l = l.
Proof.
  induction l as [|x l IH]; simpl; trivial.
  intros H. rewrite (H x (or_introl eq_refl)), IH; auto.
Qed.

Lemma subseq_filter {A} (p : A -> bool) (l : list A) : subseq (filter p l) l.
Proof.
  induction l as [|x l IH]; simpl; [constructor|].
  destruct (p x); now constructor.
Qed.

(** Without a pair supplied twice, the index retains under [o] the
    transitions leaving [o], as supplied. *)
Lemma retained_when_distinct ts o :
  pairs_distinct ts ->
  retained ts o = filter (fun t => State_eqb (origin t) o) ts.
Proof.
  induction ts as [|t ts IH]; [reflexivity|].
  intros [Ht Hd]. specialize (IH Hd).
  unfold retained, first_supplied_targets in *. simpl.
  destruct (State_eqb (origin t) o) eqn:Hto.
  - assert (Hother : forall u, In u ts -> State_eqb (origin u) o = true ->
                               State_eqb (target t) (target u) = false).
    { intros u Hu Huo. specialize (Ht u Hu). unfold same_pair in Ht.
      rewrite (eqb_congr State_eqb State_eqb_sym State_eqb_trans
                 (origin t) o (origin u) Hto), Huo in Ht.
      now rewrite State_eqb_sym. }
    assert (Htargets : forall g,
              In g (dedup_first State_eqb
                      (map (@target Host NS)
                           (filter (fun u => State_eqb (origin u) o) ts))) ->
              State_eqb (target t) g = false).
    { intros g Hg. apply dedup_first_incl, in_map_iff in Hg.
      destruct Hg as (u & <- & Hu). apply filter_In in Hu as [Hu Huo].
      now apply Hother. }
    simpl. rewrite filter_id_in
      by (intros g Hg; now rewrite (Htargets g Hg)).
    simpl.
    assert (Hfresh : last_supplied ts o (target t) = None).
    { apply last_supplied_None. intros u Hu. unfold same_pair.
      destruct (State_eqb (origin u) o) eqn:Huo; trivial. simpl.
      now rewrite State_eqb_sym, (Hother u Hu Huo). }
    rewrite Hfresh. unfold same_pair at 1.
    rewrite Hto, State_eqb_refl. simpl. f_equal.
    etransitivity; [|exact IH]. apply flat_map_agree. intros g Hg.
    destruct (last_supplied ts o g); trivial.
    unfold same_pair. now rewrite (Htargets g Hg), andb_false_r.
  - etransitivity; [|exact IH]. apply flat_map_agree. intros g _.
    destruct (last_supplied ts o g); trivial.
    unfold same_pair. now rewrite Hto.
Qed.

(** [get_possible_actions] is [available] from the current state. *)
Lemma get_possible_actions_from_state (self : WorkflowItem Host NS) it st :
  WorkflowItem_state self it = (Returns st, it) ->
  get_possible_actions self it =
  available (transitions (workflow self)) st (namespace self) it.
Proof. intros Hst. unfold get_possible_actions, bind. now rewrite Hst. Qed.

(** C7, as the code has it.  With guards that return and leave the
    entity alone, [available] yields those transitions retained under
    the origin whose guards pass, and no other; they come in the order
    in which their targets were first supplied, each target with the
    transition supplied last for it.  When no pair is supplied twice
    this is the order of supply.  A second call yields the same. *)
Theorem available_yields_retained ts o ns it :
  (forall t, In t ts -> pure_guard (action t) ns it) ->
  let yielded :=
    filter (fun t => guard_passes (action t) ns it) (retained ts o) in
  available (Transitions_new ts) o ns it = (Returns yielded, it) /\
  (first <- available (Transitions_new ts) o ns ;;
   second <- available (Transitions_new ts) o ns ;;
   ret (first, second)) it = (Returns (yielded, yielded), it) /\
  (pairs_distinct ts ->
   yielded =
     filter (fun t => guard_passes (action t) ns it)
            (filter (fun t => State_eqb (origin t) o) ts) /\
   subseq yielded ts).
Proof.
  intros Hpure yielded.
  assert (Havail : available (Transitions_new ts) o ns it =
                   (Returns yielded, it)).
  { unfold available. rewrite Transitions_new_inner.
    rewrite available_loop_pure; rewrite index_values; [reflexivity|].
    intros t Ht. apply Hpure. eapply retained_In; eassumption. }
  split; [exact Havail|]. split.
  - unfold bind. rewrite Havail, Havail. reflexivity.
  - intros Hdistinct. unfold yielded.
    rewrite retained_when_distinct by assumption. split; [reflexivity|].
    rewrite filter_filter_and. apply subseq_filter.
Qed.

End Availability.

(** C7 on an index without a pair supplied twice: from draft, the
    transition whose guards pass is yielded, the one whose guard fails
    is not, and a second call yields the same. *)
Lemma available_yields_retained_demo :
  available
    (Transitions_new [Demo.open_submit; Demo.closed_publish; Demo.review])
    Demo.draft tt Demo.fresh = (Returns [Demo.open_submit], Demo.fresh) /\
  subseq [Demo.open_submit]
         [Demo.open_submit; Demo.closed_publish; Demo.review].
Proof.
  destruct (available_yields_retained
              [Demo.open_submit; Demo.closed_publish; Demo.review]
              Demo.draft tt Demo.fresh)
    as (Havail & _ & Horder).
  - intros t [<- | [<- | [<- | []]]]; eexists; reflexivity.
  - split; [exact Havail|]. apply Horder. simpl. repeat split.
    + intros u [<- | [<- | []]]; reflexivity.
    + intros u [<- | []]; reflexivity.
    + intros u [].
Defined.

(** C7 as stated fails when a pair is supplied twice: from
    [first_try; shortcut; second_try] the index yields [second_try]
    before [shortcut], which is not the order of supply. *)
Lemma available_order_after_resupply :
  available
    (Transitions_new [Demo.first_try; Demo.shortcut; Demo.second_try])
    Demo.draft tt Demo.fresh =
  (Returns [Demo.second_try; Demo.shortcut], Demo.fresh) /\
  ~ subseq [Demo.second_try; Demo.shortcut]
           [Demo.first_try; Demo.shortcut; Demo.second_try].
Proof.
  split; [reflexivity|]. intros H.
  repeat match goal with
         | Hs : subseq _ _ |- _ => inversion Hs; clear Hs; subst
         end;
    discriminate.
Qed.

(** ** More on constraint aggregation *)
Section AggregationMore.
Context {Host NS : Type}.
Implicit Types (vs : list (Validator Host NS)) (ns : NS) (it : Item Host).

(** The running list only grows, by at most one failure a validator. *)
Lemma resolve_loop_acc vs ns : forall errors it,
  resolve_loop vs ns errors it =
  match resolve_loop vs ns [] it with
  | (Returns more, it') => (Returns (errors ++ more), it')
  | (Raises e, it') => (Raises e, it')
  end.
Proof.
  induction vs as [|v rest IH]; intros errors it; simpl.
  - unfold ret. now rewrite app_nil_r.
  - destruct (validate v ns it) as [[[]|e] it1].
    + apply IH.
    + destruct e; try reflexivity.
      rewrite (IH (errors ++ [e])), (IH ([] ++ [e])).
      destruct (resolve_loop rest ns [] it1) as [[more|x] it2]; trivial.
      simpl. now rewrite <- app_assoc.
Qed.

Lemma resolve_loop_bound vs ns : forall it more it',
  resolve_loop vs ns [] it = (Returns more, it') ->
  List.length more <= List.length vs.
Proof.
  induction vs as [|v rest IH]; intros it more it'; simpl.
  - unfold ret. intros [= <- _]. apply le_n.
  - destruct (validate v ns it) as [[[]|e] it1].
    + intros H. apply le_S. eapply IH; eassumption.
    + destruct e; try discriminate.
      rewrite resolve_loop_acc.
      destruct (resolve_loop rest ns [] it1) as [[tail|x] it2] eqn:Hrest;
        [|discriminate].
      intros [= <- _]. simpl. apply le_n_S. eapply IH; eassumption.
Qed.

(** The loop over a concatenation is the loop over the first part, then
    over the second with what the first collected. *)
Lemma resolve_loop_concat xs ys ns : forall errors it,
  resolve_loop (xs ++ ys) ns errors it =
  match resolve_loop xs ns errors it with
  | (Returns collected, it1) => resolve_loop ys ns collected it1
  | (Raises e, it1) => (Raises e, it1)
  end.
Proof.
  induction xs as [|v rest IH]; intros errors it; simpl; [reflexivity|].
  destruct (validate v ns it) as [[[]|e] it1].
  - apply IH.
  - destruct e; try reflexivity. apply IH.
Qed.

(** An exception that neither handler catches ends the loop. *)
Lemma resolve_loop_uncaught v rest ns errors it e it' :
  validate v ns it = (Raises e, it') -> uncaught e ->
  resolve_loop (v :: rest) ns errors it = (Raises e, it').
Proof. intros Hv He. simpl. rewrite Hv. now destruct e. Qed.

(** X1. Whatever the validators do, an aggregate that
    [check_constraints] returns holds at least one failure and at most
    one failure a constraint: no empty aggregate is ever returned. *)
Theorem check_constraints_aggregate_size (a : Action Host NS) ns it errors it' :
  check_constraints a ns it = (Returns (Some errors), it') ->
  1 <= List.length errors <= List.length (constraints a).
Proof.
  unfold check_constraints.
  destruct (constraints a) as [|v rest] eqn:Hc; [discriminate|].
  unfold resolve_validators, bind.
  destruct (resolve_loop (v :: rest) ns [] it) as [[collected|e] it1] eqn:Hl;
    [|discriminate].
  apply resolve_loop_bound in Hl.
  destruct collected as [|e0 tail]; [discriminate|].
  intros [= <- _]. split; [apply le_n_S, le_0_n | exact Hl].
Qed.

(** X2. A validator that raises something other than [Error] or
    [ConstraintsErrors] ends [resolve_validators] with that very
    exception: the failures collected so far are dropped and the
    validators after it are not evaluated. *)
Theorem resolve_validators_uncaught pre v post ns it e it' :
  (forall u, In u pre -> passes_or_fails_once u ns) ->
  validate v ns (snd (evaluate_all pre ns it)) = (Raises e, it') ->
  uncaught e ->
  resolve_validators (pre ++ v :: post) ns it = (Raises e, it').
Proof.
  intros Hpre Hv He. unfold resolve_validators, bind.
  rewrite (resolve_loop_app pre (v :: post) ns [] it Hpre).
  now rewrite (resolve_loop_uncaught v post ns _ _ e it' Hv He).
Qed.

(** X3. Aggregation composes over concatenation, for any validators:
    when the two parts return, run one after the other, the whole
    returns the failures of the first followed by those of the second;
    when the first part raises, so does the whole, and the second part
    is not evaluated. *)
Theorem resolve_validators_concat xs ys ns it :
  (forall rx it1 ry it2,
     resolve_validators xs ns it = (Returns rx, it1) ->
     resolve_validators ys ns it1 = (Returns ry, it2) ->
     resolve_validators (xs ++ ys) ns it =
     (Returns (aggregate_or_absent (errors_of rx ++ errors_of ry)), it2)) /\
  (forall e it1,
     resolve_validators xs ns it = (Raises e, it1) ->
     resolve_validators (xs ++ ys) ns it = (Raises e, it1)).
Proof.
  unfold resolve_validators, bind. split.
  - intros rx it1 ry it2 Hx Hy.
    rewrite resolve_loop_concat.
    destruct (resolve_loop xs ns [] it) as [[cx|e] i1]; [|discriminate].
    assert (Hcx : errors_of rx = cx /\ i1 = it1)
      by (destruct cx; injection Hx as <- <-; auto).
    destruct Hcx as [<- ->].
    rewrite resolve_loop_acc.
    destruct (resolve_loop ys ns [] it1) as [[cy|e] i2]; [|discriminate].
    assert (Hcy : errors_of ry = cy /\ i2 = it2)
      by (destruct cy; injection Hy as <- <-; auto).
    destruct Hcy as [<- ->].
    now destruct (errors_of rx ++ errors_of ry).
  - intros e it1 Hx. rewrite resolve_loop_concat.
    destruct (resolve_loop xs ns [] it) as [[cx|x] i1].
    + destruct cx; discriminate.
    + exact Hx.
Qed.

(** The outcomes of validators that pass or fail once. *)
Lemma evaluate_all_outcomes vs ns : forall it,
  (forall v, In v vs -> passes_or_fails_once v ns) ->
  Forall (fun o => o = Returns tt \/ is_single_failure o)
         (fst (evaluate_all vs ns it)).
Proof.
  induction vs as [|v rest IH]; intros it Hvs; simpl; [constructor|].
  assert (Hrest : forall u, In u rest -> passes_or_fails_once u ns)
    by (intros u Hu; apply Hvs; now right).
  specialize (IH (snd (validate v ns it)) Hrest).
  destruct (Hvs v (or_introl eq_refl) it) as [it1 [Hp | [e Hf]]].
  - rewrite Hp in *. simpl in IH.
    destruct (evaluate_all rest ns it1). constructor; auto.
  - rewrite Hf in *. simpl in IH.
    destruct (evaluate_all rest ns it1). constructor; auto.
    right. now exists e.
Qed.

(** X4. On constraints that pass or fail once, [resolve_validators]
    returns [None] exactly when every constraint passed. *)
Theorem resolve_validators_absent_iff vs ns it :
  (forall v, In v vs -> passes_or_fails_once v ns) ->
  (fst (resolve_validators vs ns it) = Returns None <->
   Forall (fun o => o = Returns tt) (fst (evaluate_all vs ns it))).
Proof.
  intros Hvs. unfold resolve_validators, bind.
  rewrite (resolve_loop_collects vs ns [] it Hvs). simpl.
  assert (Hout := evaluate_all_outcomes vs ns it Hvs).
  induction (fst (evaluate_all vs ns it)) as [|o os IH]; simpl.
  - split; auto.
  - inversion Hout as [|? ? [-> | [e ->]] Hos]; subst; simpl.
    + specialize (IH Hos). split.
      * intros H. constructor; [reflexivity|]. now apply IH.
      * intros H. inversion H; subst. now apply IH.
    + split; [discriminate|]. intros H. inversion H; subst. discriminate.
Qed.

(** X5. Whatever its alternatives do, [OR.validate] never signals a
    constraint failure, single or aggregate: it returns, or it raises
    something the aggregation loops do not catch. *)
Theorem OR_validate_never_a_failure vs ns it :
  match fst (validate (OR vs) ns it) with
  | Returns _ => True
  | Raises e => uncaught e
  end.
Proof.
  simpl. unfold OR_validate. generalize (@nil Error) as errors. revert it.
  induction vs as [|v rest IH]; intros it errors; simpl; [exact I|].
  destruct (validate v ns it) as [[[]|e] it1]; simpl; [exact I|].
  destruct e; simpl; try exact I. apply IH.
Qed.

(** X6. An [OR] used as a constraint, all of whose alternatives fail:
    [resolve_validators] does not collect the failures, it ends with the
    [NameError] of [OR.validate], and the constraints after the [OR] are
    not evaluated. *)
Theorem resolve_validators_failed_OR pre alts post ns it :
  (forall u, In u pre -> passes_or_fails_once u ns) ->
  Forall is_single_failure
         (fst (evaluate_all alts ns (snd (evaluate_all pre ns it)))) ->
  resolve_validators (pre ++ OR alts :: post) ns it =
  (Raises (NameError "ConstraintsError"),
   snd (evaluate_all alts ns (snd (evaluate_all pre ns it)))).
Proof.
  intros Hpre Halts. unfold resolve_validators, bind.
  rewrite (resolve_loop_app pre (OR alts :: post) ns [] it Hpre).
  assert (Hor := OR_loop_all_fail alts ns [] _ Halts).
  now rewrite (resolve_loop_uncaught (OR alts) post ns _ _ _ _ Hor I).
Qed.

End AggregationMore.

(** X1 on the publication guards: two failures out of three constraints. *)
Lemma check_constraints_aggregate_size_demo :
  1 <= List.length [mkError "not_reviewed"; mkError "embargo"] <=
  List.length (constraints (action Demo.publish)).
Proof.
  exact (check_constraints_aggregate_size
           (action Demo.publish) tt Demo.fresh
           [mkError "not_reviewed"; mkError "embargo"]
           (mkItem None ["not_reviewed"; "has_body"; "embargo"]) eq_refl).
Defined.

(** X2 over [C1 fails, C2 breaks, C3]: the exception of C2 comes out, the
    failure of C1 is lost and C3 is not called. *)
Lemma resolve_validators_uncaught_demo :
  resolve_validators
    [Demo.failing "C1"; Cases.broken "C2"; Demo.passing "C3"] tt Demo.fresh =
  (Raises (OtherException "C2"), mkItem None ["C1"; "C2"]).
Proof.
  refine (resolve_validators_uncaught
            [Demo.failing "C1"] (Cases.broken "C2") [Demo.passing "C3"]
            tt Demo.fresh (OtherException "C2") (mkItem None ["C1"; "C2"])
            _ _ _).
  - intros u [<- | []] it. eexists. right. eexists. reflexivity.
  - reflexivity.
  - exact I.
Defined.

(** X3 on [C1 fails, C2 passes] followed by [C3 fails], and on a first
    part that breaks. *)
Lemma resolve_validators_concat_demo :
  resolve_validators
    ([Demo.failing "C1"; Demo.passing "C2"] ++ [Demo.failing "C3"])
    tt Demo.fresh =
  (Returns (Some [mkError "C1"; mkError "C3"]),
   mkItem None ["C1"; "C2"; "C3"]) /\
  resolve_validators ([Cases.broken "C1"] ++ [Demo.failing "C3"])
                     tt Demo.fresh =
  (Raises (OtherException "C1"), mkItem None ["C1"]).
Proof.
  split.
  - exact (proj1 (resolve_validators_concat
                    [Demo.failing "C1"; Demo.passing "C2"]
                    [Demo.failing "C3"] tt Demo.fresh)
                 (Some [mkError "C1"]) (mkItem None ["C1"; "C2"])
                 (Some [mkError "C3"]) (mkItem None ["C1"; "C2"; "C3"])
                 eq_refl eq_refl).
  - exact (proj2 (resolve_validators_concat
                    [Cases.broken "C1"] [Demo.failing "C3"] tt Demo.fresh)
                 (OtherException "C1") (mkItem None ["C1"]) eq_refl).
Defined.

(** X4 on two constraints that pass. *)
Lemma resolve_validators_absent_iff_demo :
  fst (resolve_validators [Demo.passing "C1"; Demo.passing "C2"]
                          tt Demo.fresh) = Returns None.
Proof.
  apply (resolve_validators_absent_iff
           [Demo.passing "C1"; Demo.passing "C2"] tt Demo.fresh).
  - intros v [<- | [<- | []]] it; eexists; left; reflexivity.
  - repeat constructor.
Defined.

(** X6 on the guards of the [either] action. *)
Lemma resolve_validators_failed_OR_demo :
  resolve_validators (constraints (action Cases.either)) tt Demo.fresh =
  (Raises (NameError "ConstraintsError"),
   mkItem None ["has_body"; "is_owner"; "is_admin"]).
Proof.
  refine (resolve_validators_failed_OR
            [Demo.passing "has_body"]
            [Demo.failing "is_owner"; Demo.failing "is_admin"]
            [Demo.passing "unreached"] tt Demo.fresh _ _).
  - intros u [<- | []] it. eexists. left. reflexivity.
  - repeat constructor; eexists; reflexivity.
Defined.

(** ** More on commits *)
Section CommitMore.
Context {Host NS : Type}.
Implicit Types (self : WorkflowItem Host NS) (it : Item Host)
         (trn : Transition Host NS) (ts : list (Transition Host NS)).

Lemma run_triggers_app pre rest (ns : NS) : forall it,
  run_triggers (pre ++ rest) ns it =
  match run_triggers pre ns it with
  | (Returns _, it1) => run_triggers rest ns it1
  | (Raises e, it1) => (Raises e, it1)
  end.
Proof.
  induction pre as [|t pre IH]; intros it; simpl; [reflexivity|].
  unfold bind. destruct (t ns it) as [[[]|e] it1]; [apply IH | reflexivity].
Qed.

(** [find] in terms of the sequence the index was built from. *)
Lemma find_in_sequence ts o g :
  find (Transitions_new ts) o g =
  match last_supplied ts o g with
  | Some t => Returns t
  | None => Raises (LookupError o g)
  end.
Proof.
  unfold find. rewrite Transitions_new_inner, index_lookup. simpl.
  now destruct (last_supplied ts o g).
Qed.

(** X7. An exception raised while the guards are evaluated leaves
    [set_state] as it is, on the entity the guards left: no trigger
    runs and nothing is written. *)
Theorem set_state_guard_exception self target_state it tgt st trn e it1 :
  resolves self target_state it tgt st trn ->
  check_constraints (action trn) (namespace self) it = (Raises e, it1) ->
  set_state self target_state it = (Raises e, it1).
Proof.
  intros Hres Hguard.
  now rewrite (set_state_resolved self target_state it tgt st trn Hres),
    Hguard.
Qed.

(** X8. A target name that the enumeration does not have: [set_state]
    raises [KeyError] for it before anything else happens, whatever the
    entity records, and leaves the entity untouched. *)
Theorem set_state_unknown_target self target_state it :
  dict_get String.eqb (states (workflow self)) target_state = None ->
  set_state self target_state it = (Raises (KeyError (KStr target_state)), it).
Proof.
  intros Hnone. unfold set_state, bind, lift. simpl. now rewrite Hnone.
Qed.

(** X9. A target that is a member, but to which the sequence the index
    was built from has no transition from the current state:
    [set_state] raises [LookupError]; no guard is evaluated, no trigger
    runs and the entity is untouched. *)
Theorem set_state_no_transition self target_state it ts tgt st :
  transitions (workflow self) = Transitions_new ts ->
  states_getitem (states (workflow self)) (KStr target_state) = Returns tgt ->
  WorkflowItem_state self it = (Returns st, it) ->
  (forall u, In u ts -> same_pair st tgt u = false) ->
  set_state self target_state it = (Raises (LookupError st tgt), it).
Proof.
  intros Hts Htgt Hst Hnone.
  unfold set_state, bind, lift. rewrite Htgt, Hst, Hts, find_in_sequence.
  apply last_supplied_None in Hnone. now rewrite Hnone.
Qed.

(** X10. An entity whose slot holds a non-empty name that the
    enumeration does not have: reading the state raises [KeyError] for
    that name, and so do [get_possible_actions] and, for any target
    that is a member, [set_state]; the entity is untouched. *)
Theorem stale_state_raises self it s :
  __workflow_state__ it = Some s -> s <> "" ->
  dict_get String.eqb (states (workflow self)) s = None ->
  WorkflowItem_state self it = (Raises (KeyError (KStr s)), it) /\
  get_possible_actions self it = (Raises (KeyError (KStr s)), it) /\
  (forall target_state tgt,
     dict_get String.eqb (states (workflow self)) target_state = Some tgt ->
     set_state self target_state it = (Raises (KeyError (KStr s)), it)).
Proof.
  intros Hslot Hs Hnone.
  assert (Hst : WorkflowItem_state self it = (Raises (KeyError (KStr s)), it)).
  { unfold WorkflowItem_state. rewrite Hslot. simpl.
    apply String.eqb_neq in Hs. rewrite Hs. simpl. now rewrite Hnone. }
  split; [exact Hst|]. split.
  - unfold get_possible_actions, bind. now rewrite Hst.
  - intros target_state tgt Htgt. unfold set_state, bind, lift. simpl.
    now rewrite Htgt, Hst.
Qed.

(** X11. Triggers [pre ++ T :: post], those of [pre] returning in turn
    and [T] raising [e]: [set_state] raises [e] on the entity [T] left;
    the triggers of [post] do not run and the target is not written. *)
Theorem set_state_trigger_failure_at
        self target_state it tgt st trn pre T post it1 it2 it3 e :
  resolves self target_state it tgt st trn ->
  triggers (action trn) = pre ++ T :: post ->
  check_constraints (action trn) (namespace self) it = (Returns None, it1) ->
  ran_in_order (namespace self) pre it1 it2 ->
  T (namespace self) it2 = (Raises e, it3) ->
  set_state self target_state it = (Raises e, it3).
Proof.
  intros Hres Htrgs Hguard Hpre HT.
  rewrite (set_state_resolved self target_state it tgt st trn Hres), Hguard.
  rewrite Htrgs, run_triggers_app.
  apply run_triggers_returns in Hpre. rewrite Hpre. simpl.
  unfold bind. now rewrite HT.
Qed.

(** X12. Commit, then read: after a commit that returns, the [state]
    property gives the target of the commit, provided the enumeration
    holds the target under its own, non-empty, name. *)
Theorem set_state_then_state self target_state it tgt st trn it1 it2 :
  resolves self target_state it tgt st trn ->
  check_constraints (action trn) (namespace self) it = (Returns None, it1) ->
  ran_in_order (namespace self) (triggers (action trn)) it1 it2 ->
  dict_get String.eqb (states (workflow self)) (name tgt) = Some tgt ->
  name tgt <> "" ->
  (_ <- set_state self target_state ;; WorkflowItem_state self) it =
  (Returns tgt, mkItem (Some (name tgt)) (host it2)).
Proof.
  intros Hres Hguard Hran Hmember Hname. unfold bind.
  rewrite (set_state_commits self target_state it tgt st trn it1 it2
             Hres Hguard Hran).
  now apply committed_state_reads_back.
Qed.

End CommitMore.

(** X7 on a submitted document whose publication is guarded by an [OR]
    that no branch satisfies: the [NameError] comes out of the commit. *)
Lemma set_state_guard_exception_demo :
  set_state (Workflow_call Cases.guarded tt) "published"
            (mkItem (Some "submitted") []) =
  (Raises (NameError "ConstraintsError"),
   mkItem (Some "submitted") ["has_body"; "is_owner"; "is_admin"]).
Proof.
  refine (set_state_guard_exception
            (Workflow_call Cases.guarded tt) "published"
            (mkItem (Some "submitted") [])
            Demo.published Demo.submitted Cases.either
            (NameError "ConstraintsError")
            (mkItem (Some "submitted") ["has_body"; "is_owner"; "is_admin"])
            _ _).
  - repeat split.
  - reflexivity.
Defined.

(** X8: there is no state named archived. *)
Lemma set_state_unknown_target_demo :
  set_state Demo.bound "archived" Demo.fresh =
  (Raises (KeyError (KStr "archived")), Demo.fresh).
Proof.
  exact (set_state_unknown_target Demo.bound "archived" Demo.fresh eq_refl).
Defined.

(** X9: a fresh document cannot go from draft to published. *)
Lemma set_state_no_transition_demo :
  set_state Demo.bound "published" Demo.fresh =
  (Raises (LookupError Demo.draft Demo.published), Demo.fresh).
Proof.
  refine (set_state_no_transition
            Demo.bound "published" Demo.fresh
            [Demo.submit; Demo.publish; Demo.retract]
            Demo.published Demo.draft eq_refl eq_refl eq_refl _).
  intros u [<- | [<- | [<- | []]]]; reflexivity.
Defined.

(** X10 on a document recorded as archived. *)
Lemma stale_state_raises_demo :
  WorkflowItem_state Demo.bound Cases.stale =
    (Raises (KeyError (KStr "archived")), Cases.stale) /\
  get_possible_actions Demo.bound Cases.stale =
    (Raises (KeyError (KStr "archived")), Cases.stale) /\
  set_state Demo.bound "draft" Cases.stale =
    (Raises (KeyError (KStr "archived")), Cases.stale).
Proof.
  destruct (stale_state_raises Demo.bound Cases.stale "archived")
    as (Hstate & Hactions & Hcommit).
  - reflexivity.
  - discriminate.
  - reflexivity.
  - split; [exact Hstate|]. split; [exact Hactions|].
    exact (Hcommit "draft" Demo.draft eq_refl).
Defined.

(** X11 with triggers [T1; T2; T3], [T2] raising: [T3] is not in the
    log. *)
Lemma set_state_trigger_failure_at_demo :
  set_state (Workflow_call Cases.relayed tt) "submitted" Demo.fresh =
  (Raises (OtherException "T2"), mkItem None ["T1"; "T2"]).
Proof.
  refine (set_state_trigger_failure_at
            (Workflow_call Cases.relayed tt) "submitted" Demo.fresh
            Demo.submitted Demo.draft Cases.relay
            [Demo.notify "T1"] (Demo.crash "T2") [Demo.notify "T3"]
            Demo.fresh (mkItem None ["T1"]) (mkItem None ["T1"; "T2"])
            (OtherException "T2") _ _ _ _ _).
  - repeat split.
  - reflexivity.
  - reflexivity.
  - econstructor; [reflexivity | constructor].
  - reflexivity.
Defined.

(** X12 on a fresh document submitted and read again. *)
Lemma set_state_then_state_demo :
  (_ <- set_state Demo.bound "submitted" ;; WorkflowItem_state Demo.bound)
    Demo.fresh =
  (Returns Demo.submitted,
   mkItem (Some "submitted") ["has_body"; "T1"; "T2"]).
Proof.
  refine (set_state_then_state
            Demo.bound "submitted" Demo.fresh
            Demo.submitted Demo.draft Demo.submit
            (mkItem None ["has_body"])
            (mkItem None ["has_body"; "T1"; "T2"]) _ _ _ _ _).
  - repeat split.
  - reflexivity.
  - econstructor; [reflexivity|].
    econstructor; [reflexivity | constructor].
  - reflexivity.
  - discriminate.
Defined.

(** ** More on the transition index *)
Section IndexMore.
Context {Host NS : Type}.
Implicit Types (t u y : Transition Host NS) (ts : list (Transition Host NS))
         (o g : WorkflowState) (ns : NS) (it : Item Host).

Lemma same_pair_congr o o' g g' t :
  State_eqb o o' = true -> State_eqb g g' = true ->
  same_pair o g t = same_pair o' g' t.
Proof.
  intros Ho Hg. unfold same_pair.
  now rewrite (eqb_congr State_eqb State_eqb_sym State_eqb_trans
                 o o' (origin t) Ho),
              (eqb_congr State_eqb State_eqb_sym State_eqb_trans
                 g g' (target t) Hg).
Qed.

Lemma last_supplied_congr ts o o' g g' :
  State_eqb o o' = true -> State_eqb g g' = true ->
  last_supplied ts o g = last_supplied ts o' g'.
Proof.
  intros Ho Hg. induction ts as [|t ts IH]; simpl; trivial.
  now rewrite IH, (same_pair_congr o o' g g' t Ho Hg).
Qed.

Lemma last_supplied_same_pair ts o g t :
  last_supplied ts o g = Some t -> same_pair o g t = true.
Proof.
  intros H. now apply last_supplied_Some in H as (pre & post & _ & Ht & _).
Qed.

(** A transition found for a pair is found again under its own origin
    and target. *)
Lemma last_supplied_own_pair ts o g t :
  last_supplied ts o g = Some t ->
  last_supplied ts (origin t) (target t) = Some t.
Proof.
  intros H. assert (Hp := last_supplied_same_pair ts o g t H).
  unfold same_pair in Hp. apply andb_true_iff in Hp as [Ho Hg].
  now rewrite (last_supplied_congr ts (origin t) o (target t) g Ho Hg).
Qed.

Lemma retained_last ts o t :
  In t (retained ts o) ->
  State_eqb (origin t) o = true /\ last_supplied ts o (target t) = Some t.
Proof.
  unfold retained. rewrite in_flat_map. intros (g & _ & Hg).
  destruct (last_supplied ts o g) as [u|] eqn:Hl; [|easy].
  destruct Hg as [<- | []].
  assert (Hp := last_supplied_same_pair ts o g u Hl).
  unfold same_pair in Hp. apply andb_true_iff in Hp as [Ho Hg].
  split; [exact Ho|].
  now rewrite (last_supplied_congr ts o o (target u) g
                 (State_eqb_refl o) Hg).
Qed.

(** Whatever the guards do, the loop of [available] yields values of
    the dictionary it goes through. *)
Lemma available_loop_subseq ns
      (items : list (WorkflowState * Transition Host NS)) : forall it ys it',
  available_loop items ns it = (Returns ys, it') ->
  subseq ys (map snd items).
Proof.
  induction items as [|[k t] items IH]; intros it ys it'; simpl.
  - unfold ret. intros [= <- _]. constructor.
  - unfold bind.
    destruct (check_constraints (action t) ns it) as [[r|e] it1];
      [|discriminate].
    destruct (available_loop items ns it1) as [[rest|e] it2] eqn:Hrest;
      [|discriminate].
    specialize (IH it1 rest it2 Hrest).
    destruct r; unfold ret; intros [= <- _]; now constructor.
Qed.

Lemma subseq_In {A} (ys l : list A) :
  subseq ys l -> forall a : A, In a ys -> In a l.
Proof.
  induction 1 as [l | x ys l _ IH | x ys l _ IH]; intros a Ha.
  - destruct Ha.
  - right. now apply IH.
  - destruct Ha as [<- | Ha]; [now left | right; now apply IH].
Qed.

(** [available] on guards that leave the entity alone. *)
Lemma available_pure ts o ns it :
  (forall t, In t ts -> pure_guard (action t) ns it) ->
  available (Transitions_new ts) o ns it =
  (Returns (filter (fun t => guard_passes (action t) ns it) (retained ts o)),
   it).
Proof.
  intros Hpure. unfold available. rewrite Transitions_new_inner.
  rewrite available_loop_pure; rewrite index_values; [reflexivity|].
  intros t Ht. apply Hpure. eapply retained_In; eassumption.
Qed.

(** X13. What is listed can be committed: with guards that leave the
    entity alone, a transition that [get_possible_actions] lists is the
    one [set_state] takes when asked for its target by name, and the
    commit gets past lookup and guards: it returns or raises as the
    triggers do. *)
Theorem listed_transition_commits (self : WorkflowItem Host NS) it ts st ys t :
  transitions (workflow self) = Transitions_new ts ->
  (forall u, In u ts -> pure_guard (action u) (namespace self) it) ->
  WorkflowItem_state self it = (Returns st, it) ->
  get_possible_actions self it = (Returns ys, it) ->
  In t ys ->
  states_getitem (states (workflow self)) (KStr (name (target t))) =
    Returns (target t) ->
  set_state self (name (target t)) it =
  match run_triggers (triggers (action t)) (namespace self) it with
  | (Returns _, it2) =>
      (Returns tt, mkItem (Some (name (target t))) (host it2))
  | (Raises e, it2) => (Raises e, it2)
  end.
Proof.
  intros Hts Hpure Hst Hlist Hin Htgt.
  unfold get_possible_actions, bind in Hlist. rewrite Hst, Hts in Hlist.
  rewrite (available_pure ts st (namespace self) it Hpure) in Hlist.
  injection Hlist as <-. apply filter_In in Hin as [Hret Hpass].
  destruct (retained_last ts st t Hret) as [_ Hlast].
  assert (Hres : resolves self (name (target t)) it (target t) st t).
  { repeat split; trivial. now rewrite Hts, find_in_sequence, Hlast. }
  rewrite (set_state_resolved self _ it (target t) st t Hres).
  destruct (Hpure t (retained_In ts st t Hret)) as [r Hr].
  unfold guard_passes in Hpass. rewrite Hr in *. simpl in Hpass.
  now destruct r.
Qed.

(** X14. Whatever the guards do, every transition that [available]
    yields from [o] was supplied, leaves [o], and is the one [find]
    returns from [o] to its target. *)
Theorem available_yields_found ts o ns it ys it' y :
  available (Transitions_new ts) o ns it = (Returns ys, it') ->
  In y ys ->
  In y ts /\ State_eqb (origin y) o = true /\
  find (Transitions_new ts) o (target y) = Returns y.
Proof.
  unfold available. rewrite Transitions_new_inner. intros Havail Hy.
  apply available_loop_subseq in Havail. rewrite index_values in Havail.
  assert (Hret := subseq_In _ _ Havail y Hy).
  destruct (retained_last ts o y Hret) as [Ho Hlast].
  repeat split; [eapply retained_In; eassumption | exact Ho |].
  now rewrite find_in_sequence, Hlast.
Qed.

(** X15. What [find] returns was supplied, joins the pair asked for,
    and is found again under its own origin and target. *)
Theorem find_sound ts o g t :
  find (Transitions_new ts) o g = Returns t ->
  In t ts /\ same_pair o g t = true /\
  find (Transitions_new ts) (origin t) (target t) = Returns t.
Proof.
  rewrite !find_in_sequence.
  destruct (last_supplied ts o g) as [u|] eqn:Hl; [|discriminate].
  intros [= ->]. repeat split.
  - eapply last_supplied_In; eassumption.
  - eapply last_supplied_same_pair; eassumption.
  - now rewrite (last_supplied_own_pair ts o g t Hl).
Qed.

Lemma index_without_origin ts o : forall d,
  (forall u, In u ts -> State_eqb (origin u) o = false) ->
  fold_left (index_step o) ts d = d.
Proof.
  induction ts as [|t ts IH]; intros d Hts; simpl; trivial.
  unfold index_step at 2. rewrite (Hts t (or_introl eq_refl)).
  apply IH. intros u Hu. apply Hts. now right.
Qed.

(** X16. From a state that no supplied transition leaves, [available]
    yields nothing and evaluates no guard, and [find] raises
    [LookupError] for every target. *)
Theorem nothing_leaves ts o ns it :
  (forall u, In u ts -> State_eqb (origin u) o = false) ->
  available (Transitions_new ts) o ns it = (Returns [], it) /\
  forall g, find (Transitions_new ts) o g = Raises (LookupError o g).
Proof.
  intros Hts. split.
  - unfold available.
    now rewrite Transitions_new_inner, (index_without_origin ts o [] Hts).
  - intros g. unfold find.
    now rewrite Transitions_new_inner, (index_without_origin ts o [] Hts).
Qed.

(** X17. A workflow is constructed only from the name of a member: when
    [Workflow.__init__] returns, its argument was a string, and the
    default state stored is the member the enumeration holds under that
    string. *)
Theorem Workflow_init_returns members (trs : Transitions Host NS) key w :
  Workflow_init members trs key = Returns w ->
  exists s,
    key = KStr s /\
    dict_get String.eqb members s = Some (default_state w) /\
    states w = members /\ transitions w = trs /\
    get_state w KNone = states_getitem members key.
Proof.
  unfold Workflow_init. destruct key as [|s|m]; simpl; try discriminate.
  destruct (dict_get String.eqb members s) as [m|] eqn:Hm; [|discriminate].
  intros [= <-]. exists s. simpl. now rewrite Hm.
Qed.

(** X18. Taking the transitions of the generator one [next] at a time
    until it stops gives, with enough fuel, what the loop of
    [available] run to its end gives, whatever the guards do. *)
Theorem tuple_of_generator ns
        (items : list (WorkflowState * Transition Host NS)) : forall fuel it,
  List.length items < fuel ->
  tuple_of fuel items ns it = Some (available_loop items ns it).
Proof.
  induction items as [|[k t] items IH]; intros fuel it Hfuel.
  - destruct fuel; [inversion Hfuel | reflexivity].
  - destruct fuel as [|fuel]; [inversion Hfuel|].
    simpl in Hfuel. apply PeanoNat.lt_S_n in Hfuel.
    assert (Hskip := IH (S fuel) (snd (check_constraints (action t) ns it))
                        (PeanoNat.Nat.lt_lt_succ_r _ _ Hfuel)).
    assert (Htake := IH fuel (snd (check_constraints (action t) ns it))
                        Hfuel).
    simpl in *. unfold bind in *.
    destruct (check_constraints (action t) ns it) as [[[errors|]|e] it1];
      simpl in *.
    + rewrite Hskip. now destruct (available_loop items ns it1) as [[ys|e] it2].
    + rewrite Htake. now destruct (available_loop items ns it1) as [[ys|e] it2].
    + reflexivity.
Qed.

(** X19. One [next] on the generator goes through the transitions whose
    guards fail and stops at the first whose guards pass: the guards of
    the transitions after it are not evaluated. *)
Theorem available_next_stops ns it pre k t post it1 :
  (forall u, In u (map snd pre) -> guard_fails (action u) ns it) ->
  check_constraints (action t) ns it = (Returns None, it1) ->
  available_next (pre ++ (k, t) :: post) ns it = (Returns (Some (t, post)), it1).
Proof.
  intros Hpre Ht. induction pre as [|[k0 u] pre IH]; simpl.
  - unfold bind. now rewrite Ht.
  - destruct (Hpre u (or_introl eq_refl)) as [errors Hu].
    unfold bind. rewrite Hu. apply IH.
    intros v Hv. apply Hpre. now right.
Qed.

(** X20. The empty [dict] that a subscript of [_edges] adds under a
    fresh origin changes nothing for later calls: [find] and
    [available] give on the transitions after the lookup what they give
    before it. *)
Theorem lookup_leaves_no_trace (self : Transitions Host NS) k o g ns it :
  find (after_lookup self k) o g = find self o g /\
  available (after_lookup self k) o ns it = available self o ns it.
Proof.
  unfold find, available, after_lookup. simpl.
  now rewrite defaultdict_getitem_stable.
Qed.

End IndexMore.

(** ** One transition a target *)
Section DistinctTargets.
Context {Host NS : Type}.
Implicit Types (t u : Transition Host NS) (ts : list (Transition Host NS))
         (o : WorkflowState)
         (d : list (WorkflowState * Transition Host NS)).

(** Every transition of the dictionary sits under its target. *)
Lemma dict_set_keyed d t :
  Forall (fun kv => State_eqb (fst kv) (target (snd kv)) = true) d ->
  Forall (fun kv => State_eqb (fst kv) (target (snd kv)) = true)
         (dict_set State_eqb d (target t) t).
Proof.
  induction d as [|[k v] d IH]; simpl; intros Hd.
  - constructor; [apply State_eqb_refl | constructor].
  - inversion Hd as [|? ? Hk Hrest]; subst.
    destruct (State_eqb k (target t)) eqn:Hkt; constructor; auto.
Qed.

Lemma index_keyed ts o : forall d,
  Forall (fun kv => State_eqb (fst kv) (target (snd kv)) = true) d ->
  Forall (fun kv => State_eqb (fst kv) (target (snd kv)) = true)
         (fold_left (index_step o) ts d).
Proof.
  induction ts as [|t ts IH]; intros d Hd; simpl; trivial.
  apply IH. unfold index_step. destruct (State_eqb (origin t) o); trivial.
  now apply dict_set_keyed.
Qed.

Lemma values_distinct d :
  dict_wf State_eqb d ->
  Forall (fun kv => State_eqb (fst kv) (target (snd kv)) = true) d ->
  ForallOrdPairs (fun a b => State_eqb (target a) (target b) = false)
                 (map snd d).
Proof.
  induction d as [|[k v] d IH]; simpl; intros Hwf Hkeyed; [constructor|].
  destruct Hwf as [Hk Hwf]. inversion Hkeyed as [|? ? Hkv Hrest]; subst.
  simpl in Hkv. constructor; [|now apply IH].
  apply Forall_forall. intros v' Hv'. apply in_map_iff in Hv'.
  destruct Hv' as ([k' w] & <- & Hin). simpl.
  assert (Hk' := proj1 (Forall_forall _ _) Hrest _ Hin). simpl in Hk'.
  assert (Hne : State_eqb k' k = false)
    by (apply (in_keys_false State_eqb (map fst d) k k' Hk);
        apply in_map_iff; now exists (k', w)).
  destruct (State_eqb (target v) (target w)) eqn:Heq; trivial.
  rewrite <- Hne. symmetry.
  apply (State_eqb_trans k' (target w) k Hk').
  rewrite State_eqb_sym.
  apply (State_eqb_trans k (target v) (target w) Hkv Heq).
Qed.

Lemma subseq_ordered_pairs {A} (R : A -> A -> Prop) (ys l : list A) :
  subseq ys l -> ForallOrdPairs R l -> ForallOrdPairs R ys.
Proof.
  induction 1 as [l | x ys l _ IH | x ys l Hsub IH]; intros Hl.
  - constructor.
  - inversion Hl; subst. now apply IH.
  - inversion Hl as [|? ? Hx Hrest]; subst. constructor; [|now apply IH].
    apply Forall_forall. intros a Ha.
    apply (proj1 (Forall_forall _ _) Hx). eapply subseq_In; eassumption.
Qed.

(** X21. Whatever the sequence supplied and whatever the guards do, no
    two transitions that [available] yields have the same target. *)
Theorem available_distinct_targets ts o (ns : NS) (it : Item Host) ys it' :
  available (Transitions_new ts) o ns it = (Returns ys, it') ->
  ForallOrdPairs (fun a b => State_eqb (target a) (target b) = false) ys.
Proof.
  unfold available. rewrite Transitions_new_inner. intros Havail.
  apply available_loop_subseq in Havail.
  apply (subseq_ordered_pairs _ _ _ Havail).
  apply values_distinct.
  - apply index_wf. exact I.
  - apply index_keyed. constructor.
Qed.

End DistinctTargets.

(** X13 on the workflow whose guards only look: submission is listed for
    a fresh document, and committing it returns. *)
Lemma listed_transition_commits_demo :
  set_state (Workflow_call Cases.quiet tt) "submitted" Demo.fresh =
  (Returns tt, mkItem (Some "submitted") []).
Proof.
  refine (listed_transition_commits
            (Workflow_call Cases.quiet tt) Demo.fresh
            [Demo.open_submit; Demo.closed_publish; Demo.review]
            Demo.draft [Demo.open_submit] Demo.open_submit
            eq_refl _ eq_refl eq_refl (or_introl eq_refl) eq_refl).
  intros u [<- | [<- | [<- | []]]]; eexists; reflexivity.
Defined.

(** X14 on the publication workflow, whose guards write to the log. *)
Lemma available_yields_found_demo :
  In Demo.submit [Demo.submit; Demo.publish; Demo.retract] /\
  State_eqb (origin Demo.submit) Demo.draft = true /\
  find (Transitions_new [Demo.submit; Demo.publish; Demo.retract])
       Demo.draft (target Demo.submit) = Returns Demo.submit.
Proof.
  exact (available_yields_found
           [Demo.submit; Demo.publish; Demo.retract] Demo.draft tt Demo.fresh
           [Demo.submit] (mkItem None ["has_body"]) Demo.submit
           eq_refl (or_introl eq_refl)).
Defined.

(** X21 on the sequence that supplies draft -> submitted twice. *)
Lemma available_distinct_targets_demo :
  ForallOrdPairs (fun a b : Transition Demo.Log unit =>
                    State_eqb (target a) (target b) = false)
                 [Demo.second_try; Demo.shortcut].
Proof.
  exact (available_distinct_targets
           [Demo.first_try; Demo.shortcut; Demo.second_try] Demo.draft
           tt Demo.fresh [Demo.second_try; Demo.shortcut] Demo.fresh eq_refl).
Defined.

(** X15 on the sequence that supplies draft -> submitted twice. *)
Lemma find_sound_demo :
  In Demo.second_try [Demo.first_try; Demo.shortcut; Demo.second_try] /\
  same_pair Demo.draft Demo.submitted Demo.second_try = true /\
  find (Transitions_new [Demo.first_try; Demo.shortcut; Demo.second_try])
       (origin Demo.second_try) (target Demo.second_try) =
  Returns Demo.second_try.
Proof.
  exact (find_sound
           [Demo.first_try; Demo.shortcut; Demo.second_try]
           Demo.draft Demo.submitted Demo.second_try eq_refl).
Defined.

(** X16: nothing leaves published in the workflow whose guards only
    look. *)
Lemma nothing_leaves_demo :
  available (transitions Cases.quiet) Demo.published tt Demo.fresh =
    (Returns [], Demo.fresh) /\
  find (transitions Cases.quiet) Demo.published Demo.draft =
    Raises (LookupError Demo.published Demo.draft).
Proof.
  destruct (nothing_leaves
              [Demo.open_submit; Demo.closed_publish; Demo.review]
              Demo.published tt Demo.fresh)
    as [Havail Hfind].
  - intros u [<- | [<- | [<- | []]]]; reflexivity.
  - split; [exact Havail | exact (Hfind Demo.draft)].
Defined.

(** X17 on the publication workflow. *)
Lemma Workflow_init_returns_demo :
  exists s,
    KStr "draft" = KStr s /\
    dict_get String.eqb Demo.members s = Some Demo.draft /\
    states Demo.workflow = Demo.members /\
    transitions Demo.workflow = transitions Demo.workflow /\
    get_state Demo.workflow KNone =
    states_getitem Demo.members (KStr "draft").
Proof.
  exact (Workflow_init_returns
           Demo.members (transitions Demo.workflow) (KStr "draft")
           Demo.workflow eq_refl).
Defined.

(** X18 on the two transitions that leave draft, with fuel for three
    calls of [next]. *)
Lemma tuple_of_generator_demo :
  tuple_of 3 [(Demo.submitted, Demo.open_submit);
              (Demo.published, Demo.closed_publish)] tt Demo.fresh =
  Some (Returns [Demo.open_submit], Demo.fresh).
Proof.
  exact (tuple_of_generator
           tt [(Demo.submitted, Demo.open_submit);
               (Demo.published, Demo.closed_publish)]
           3 Demo.fresh (le_n 3)).
Defined.

(** X19: [next] passes over the closed publication, stops at the open
    submission and leaves the review for later. *)
Lemma available_next_stops_demo :
  available_next
    ([(Demo.published, Demo.closed_publish)] ++
     (Demo.submitted, Demo.open_submit) ::
     [(Demo.published, Demo.review)]) tt Demo.fresh =
  (Returns (Some (Demo.open_submit, [(Demo.published, Demo.review)])),
   Demo.fresh).
Proof.
  refine (available_next_stops
            tt Demo.fresh [(Demo.published, Demo.closed_publish)]
            Demo.submitted Demo.open_submit
            [(Demo.published, Demo.review)] Demo.fresh _ eq_refl).
  intros u [<- | []]. eexists. reflexivity.
Defined.

(** ** A guard that raises while transitions are listed *)
Section ListingFails.
Context {Host NS : Type}.
Implicit Types (t u : Transition Host NS) (ts : list (Transition Host NS))
         (o : WorkflowState) (ns : NS) (it : Item Host).



End ListingFails.

